(** * cachetools.func : memoizing decorators with stampede prevention

    A shallow embedding of [cachetools/func.py].  The decorators of that
    file close over a cache object, a key function, a condition variable,
    a set of pending keys and two counters.  Every access to the shared
    variables is made inside a [with cond:] block, so each such block is
    modelled as one atomic transition of a thread; the call of the wrapped
    function is a transition of its own that touches nothing shared.

    [decorator] returns the function object [wrapper] after
    [functools.update_wrapper(wrapper, func)]: function objects carry
    their metadata and their [__dict__], and what an attribute of a
    wrapper holds is looked up there.

    The cache classes ([FIFOCache] .. [TTLCache]), [_CacheInfo] and the
    [keys] module are imported by [func.py] from the rest of the package;
    they are modelled here from the specification and marked as such. *)

From Stdlib Require Import ZArith QArith.
From stdpp Require Import gmap strings list fin_maps.

Local Open Scope Z_scope.

(** ** Python values that reach a key function *)

(** The arguments of the calls are hashable values.  A call with an
    unhashable argument never gets further than line 41 of [func.py]:
    [k not in pending] hashes the key and raises [TypeError] before any
    shared variable is read or written and before [func] is called.
    Such a call changes nothing and is not a call of this model. *)

Inductive pytype := TInt | TFloat | TStr.

Inductive pyval :=
| PInt (z : Z)
| PFloat (q : Q)          (* a float, given by its exact rational value *)
| PStr (s : string).

Definition type_of (v : pyval) : pytype :=
  match v with
  | PInt _ => TInt
  | PFloat _ => TFloat
  | PStr _ => TStr
  end.

(** What [==] and [hash] see of a value: a number in lowest terms (so
    that [1 == 1.0]) or a string. *)
Inductive atom :=
| ANum (n : Z) (d : positive)
| AStr (s : string).

Definition atom_of (v : pyval) : atom :=
  match v with
  | PInt z => ANum z 1
  | PFloat q => let r := Qred q in ANum (Qnum r) (Qden r)
  | PStr s => AStr s
  end.

Global Instance pytype_eq_dec : EqDecision pytype.
Proof. solve_decision. Defined.

Global Instance pytype_countable : Countable pytype.
Proof.
  refine (inj_countable'
            (fun t => match t with TInt => 0%nat | TFloat => 1%nat | TStr => 2%nat end)
            (fun n => match n with O => TInt | S O => TFloat | _ => TStr end) _).
  by intros [].
Defined.

Global Instance atom_eq_dec : EqDecision atom.
Proof. solve_decision. Defined.

Global Instance atom_countable : Countable atom.
Proof.
  refine (inj_countable'
            (fun a => match a with ANum n d => inl (n, d) | AStr s => inr s end)
            (fun x => match x with inl (n, d) => ANum n d | inr s => AStr s end) _).
  by intros [].
Defined.

(** The arguments of one call: [*args] and [**kwargs]. *)
Record call_args := Call {
  positional : list pyval;
  keywords : gmap string pyval
}.

(** The wrapped function: it returns a value or raises. *)
Inductive exn :=
| Raised (e : string)     (* an exception of the wrapped function *)
| KeyError.               (* [pending.remove(k)] on an absent key *)

Definition outcome : Type := pyval + exn.
Definition pyfunc : Type := call_args -> pyval + string.

(** ** Function objects *)

(** What [decorator] makes an attribute of [wrapper] (lines 81-86), and
    [__wrapped__], which [functools.update_wrapper] sets (line 88). *)
Inductive member :=
| MCache | MCacheKey | MCacheLock | MCacheClear | MCacheInfo | MCacheParameters
| MWrapped.

Global Instance member_eq_dec : EqDecision member.
Proof. solve_decision. Defined.

(** The value of an attribute of a function object: a member of the
    memoizing wrapper [depth] steps down the [__wrapped__] chain from
    the object that holds the attribute ([0]: a member of that object
    itself), a number or a string, [None], or any other object. *)
Inductive attribute :=
| Member (depth : nat) (m : member)
| Value (v : pyval)
| PyNone
| Opaque (name : string).

(** A function object: what a call of it does, its values for the
    attributes of [functools.WRAPPER_ASSIGNMENTS] that the model follows
    ([__module__], [__name__], [__qualname__], [__doc__]; an absent key
    is an attribute the object does not have), and its [__dict__]. *)
Record funobj := FunObj {
  fo_call : call_args -> pyval + string;
  fo_meta : gmap string attribute;
  fo_dict : gmap string attribute
}.

Coercion fo_call : funobj >-> Funclass.

(** A [lambda] of the main module with the behaviour [f]: its
    [__dict__] is empty. *)
Definition plain (f : pyfunc) : funobj :=
  {| fo_call := f;
     fo_meta := list_to_map
       [("__module__"%string, Value (PStr "__main__"));
        ("__name__"%string, Value (PStr "<lambda>"));
        ("__qualname__"%string, Value (PStr "<lambda>"));
        ("__doc__"%string, PyNone)];
     fo_dict := ∅ |}.

Coercion plain : pyfunc >-> funobj.

(** What the statement [def wrapper] of line 37 gives the new function
    object, before [update_wrapper]. *)
Definition wrapper_meta : gmap string attribute :=
  list_to_map
    [("__module__"%string, Value (PStr "cachetools.func"));
     ("__name__"%string, Value (PStr "wrapper"));
     ("__qualname__"%string, Value (PStr "_cache.<locals>.decorator.<locals>.wrapper"));
     ("__doc__"%string, PyNone)].

(** Lines 81-86: the attributes [decorator] sets on [wrapper]. *)
Definition wrapper_members : gmap string attribute :=
  list_to_map
    [("cache"%string, Member 0 MCache);
     ("cache_key"%string, Member 0 MCacheKey);
     ("cache_lock"%string, Member 0 MCacheLock);
     ("cache_clear"%string, Member 0 MCacheClear);
     ("cache_info"%string, Member 0 MCacheInfo);
     ("cache_parameters"%string, Member 0 MCacheParameters)].

(** An attribute of the wrapped function, seen from its wrapper: the
    function is one step down the [__wrapped__] chain. *)
Definition inherited (x : attribute) : attribute :=
  match x with
  | Member depth m => Member (S depth) m
  | _ => x
  end.

(** [functools.update_wrapper(wrapper, wrapped)] on a wrapper that has
    the metadata [meta] and the [__dict__] [dict]: the attributes of
    [WRAPPER_ASSIGNMENTS] that [wrapped] has are assigned to the
    wrapper, the [__dict__] of the wrapper is updated with that of
    [wrapped], whose entries win, and then [__wrapped__] is set. *)
Definition update_wrapper (meta dict : gmap string attribute) (wrapped : funobj)
  : gmap string attribute * gmap string attribute :=
  (fo_meta wrapped ∪ meta,
   <["__wrapped__"%string := Member 0 MWrapped]> ((inherited <$> fo_dict wrapped) ∪ dict)).

(** ** keys *)

Module keys.

(** A cache key: hashable, compared with [==]. *)
Record key := Key {
  k_args : list atom;
  k_kwargs : list (string * atom);
  k_types : list pytype
}.

Global Instance key_eq_dec : EqDecision key.
Proof. solve_decision. Defined.

Global Instance key_countable : Countable key.
Proof.
  refine (inj_countable'
            (fun k => (k_args k, k_kwargs k, k_types k))
            (fun t => match t with (a, kw, ty) => Key a kw ty end) _).
  by intros [].
Defined.

(** Modelled from the spec: [keys.hashkey] is not in [func.py].  Two
    calls equal in all positional and keyword values give equal keys,
    whatever the order of the keywords. *)
Definition hashkey (a : call_args) : key :=
  {| k_args := atom_of <$> positional a;
     k_kwargs := map_to_list (atom_of <$> keywords a);
     k_types := [] |}.

(** Modelled from the spec: [keys.typedkey] is not in [func.py].  As
    [hashkey], and arguments of different runtime types give different
    keys even when equal by value. *)
Definition typedkey (a : call_args) : key :=
  {| k_args := atom_of <$> positional a;
     k_kwargs := map_to_list (atom_of <$> keywords a);
     k_types := (type_of <$> positional a)
                ++ ((fun p => type_of (snd p)) <$> map_to_list (keywords a)) |}.

End keys.

Export keys.

(** ** The cache classes *)

Inductive Policy := FIFO | LRU | MRU | LFU | RR | TTL.

Global Instance Policy_eq_dec : EqDecision Policy.
Proof. solve_decision. Defined.

(** A capacity: an integer, or [math.inf]. *)
Inductive Capacity :=
| Finite (n : Z)
| Infinite.

(** Modelled from the spec: a cache entry, with the metadata of the
    policies (insertion sequence number, last-access sequence number,
    frequency counter, absolute expiry). *)
Record CacheEntry := Entry {
  e_key : key;
  e_value : pyval;
  e_ins : nat;
  e_acc : nat;
  e_freq : nat;
  e_exp : Z
}.

(** Modelled from the spec: the bounded cache behind the classes
    [FIFOCache], [LRUCache], [MRUCache], [LFUCache], [RRCache] and
    [TTLCache], which [func.py] imports: a capacity, a mapping from key
    to entry, and the sequence counter that orders insertions and
    accesses.  Every value has unit cost, so the size is the number of
    entries. *)
Record BoundedCache := Bounded {
  policy : Policy;
  capacity : Capacity;
  ttl : Z;
  choice : list key -> key;
  entries : gmap key CacheEntry;
  next_seq : nat
}.

Definition with_entries (c : BoundedCache) (m : gmap key CacheEntry) : BoundedCache :=
  {| policy := policy c; capacity := capacity c; ttl := ttl c;
     choice := choice c; entries := m; next_seq := next_seq c |}.

Definition bump_seq (c : BoundedCache) : BoundedCache :=
  {| policy := policy c; capacity := capacity c; ttl := ttl c;
     choice := choice c; entries := entries c; next_seq := S (next_seq c) |}.

(** An entry is expired once the current time has reached its expiry. *)
Definition expired (now : Z) (e : CacheEntry) : bool := e_exp e <=? now.

Definition set_acc (n : nat) (e : CacheEntry) : CacheEntry :=
  {| e_key := e_key e; e_value := e_value e; e_ins := e_ins e;
     e_acc := n; e_freq := e_freq e; e_exp := e_exp e |}.

Definition incr_freq (e : CacheEntry) : CacheEntry :=
  {| e_key := e_key e; e_value := e_value e; e_ins := e_ins e;
     e_acc := e_acc e; e_freq := S (e_freq e); e_exp := e_exp e |}.

Definition set_value (v : pyval) (e : CacheEntry) : CacheEntry :=
  {| e_key := e_key e; e_value := v; e_ins := e_ins e;
     e_acc := e_acc e; e_freq := e_freq e; e_exp := e_exp e |}.

(** The metadata a policy updates when an entry is touched. *)
Definition touch (c : BoundedCache) (k : key) : BoundedCache :=
  match policy c with
  | LRU | MRU => bump_seq (with_entries c (alter (set_acc (next_seq c)) k (entries c)))
  | LFU => with_entries c (alter incr_freq k (entries c))
  | FIFO | RR | TTL => c
  end.

(** What a policy ranks its entries by; the least rank is evicted, and
    the second component breaks ties by insertion. *)
Definition rank (p : Policy) (e : CacheEntry) : Z * Z :=
  match p with
  | FIFO | RR => (Z.of_nat (e_ins e), Z.of_nat (e_ins e))
  | LRU => (Z.of_nat (e_acc e), Z.of_nat (e_ins e))
  | MRU => (- Z.of_nat (e_acc e), - Z.of_nat (e_ins e))
  | LFU => (Z.of_nat (e_freq e), Z.of_nat (e_ins e))
  | TTL => (e_exp e, Z.of_nat (e_ins e))
  end.

Definition before (r r' : Z * Z) : bool :=
  (r.1 <? r'.1) || ((r.1 =? r'.1) && (r.2 <? r'.2)).

Fixpoint least (p : Policy) (l : list CacheEntry) : option CacheEntry :=
  match l with
  | [] => None
  | e :: l' =>
      match least p l' with
      | Some e' => if before (rank p e') (rank p e) then Some e' else Some e
      | None => Some e
      end
  end.

(** The victim rule of each policy. *)
Definition victim (c : BoundedCache) : option key :=
  match policy c with
  | RR =>
      match map_to_list (entries c) with
      | [] => None
      | l => Some (choice c (l.*1))
      end
  | p => e_key <$> least p ((map_to_list (entries c)).*2)
  end.

Definition is_full (c : BoundedCache) : bool :=
  match capacity c with
  | Finite n => n <=? Z.of_nat (size (entries c))
  | Infinite => false
  end.

(** A value of unit cost never fits a capacity below one. *)
Definition too_large (c : BoundedCache) : bool :=
  match capacity c with
  | Finite n => n <? 1
  | Infinite => false
  end.

Definition purge (now : Z) (c : BoundedCache) : BoundedCache :=
  match policy c with
  | TTL => with_entries c (filter (fun ke => expired now ke.2 = false) (entries c))
  | _ => c
  end.

(** Make room: a TTL cache first drops what has expired; a cache that is
    still full drops the victim of its policy. *)
Definition evict (now : Z) (c : BoundedCache) : BoundedCache :=
  let c1 := purge now c in
  if is_full c1 then
    match victim c1 with
    | Some k => with_entries c1 (delete k (entries c1))
    | None => c1
    end
  else c1.

(** [get]: the value, or [None] for NotFound.  A TTL cache treats an
    expired entry as absent and removes it. *)
Definition bc_get (now : Z) (c : BoundedCache) (k : key) : option pyval * BoundedCache :=
  match entries c !! k with
  | None => (None, c)
  | Some e =>
      match policy c with
      | TTL =>
          if expired now e then (None, with_entries c (delete k (entries c)))
          else (Some (e_value e), touch c k)
      | _ => (Some (e_value e), touch c k)
      end
  end.

(** [put]: [None] is ValueTooLarge, and the cache is then unchanged. *)
Definition bc_put (now : Z) (c : BoundedCache) (k : key) (v : pyval)
  : option BoundedCache :=
  if too_large c then None
  else
    match entries c !! k with
    | Some _ => Some (touch (with_entries c (alter (set_value v) k (entries c))) k)
    | None =>
        let c1 := if is_full c then evict now c else c in
        let e := {| e_key := k; e_value := v; e_ins := next_seq c1;
                    e_acc := next_seq c1; e_freq := 0; e_exp := now + ttl c1 |} in
        Some (bump_seq (with_entries c1 (<[k := e]> (entries c1))))
    end.

Definition bc_clear (c : BoundedCache) : BoundedCache := with_entries c ∅.

Definition new_cache (p : Policy) (cap : Capacity) (t : Z) (ch : list key -> key)
  : BoundedCache :=
  {| policy := p; capacity := cap; ttl := t; choice := ch;
     entries := ∅; next_seq := 0 |}.

(** The selection function of the classes that have none. *)
Definition no_choice (l : list key) : key := default (Key [] [] []) (head l).

Definition FIFOCache (maxsize : Z) := new_cache FIFO (Finite maxsize) 0 no_choice.
Definition LFUCache (maxsize : Z) := new_cache LFU (Finite maxsize) 0 no_choice.
Definition LRUCache (maxsize : Z) := new_cache LRU (Finite maxsize) 0 no_choice.
Definition MRUCache (maxsize : Z) := new_cache MRU (Finite maxsize) 0 no_choice.
Definition RRCache (maxsize : Z) (ch : list key -> key) :=
  new_cache RR (Finite maxsize) 0 ch.
Definition TTLCache (maxsize : Capacity) (t : Z) := new_cache TTL maxsize t no_choice.

(** ** func.py *)

(** The object bound to [cache] in [_cache]: a plain [dict], an instance
    of one of the cache classes, or an [_UnboundTTLCache]. *)
Inductive cache :=
| PyDict (d : gmap key pyval)
| CacheObj (c : BoundedCache)
| UnboundTTL (c : BoundedCache).

(** [_UnboundTTLCache.__init__]: [TTLCache.__init__(self, math.inf, ttl, timer)].
    The timer is the clock of the system below. *)
Definition _UnboundTTLCache (t : Z) : cache := UnboundTTL (TTLCache Infinite t).

(** The [maxsize] property: [_UnboundTTLCache] overrides it to [None]. *)
Definition cache_maxsize (c : cache) : option Capacity :=
  match c with
  | PyDict _ => None
  | CacheObj b => Some (capacity b)
  | UnboundTTL _ => None
  end.

(** [len(cache)] of a dict, [cache.currsize] of a cache object. *)
Definition cache_currsize (c : cache) : nat :=
  match c with
  | PyDict d => size d
  | CacheObj b | UnboundTTL b => size (entries b)
  end.

(** [cache[k]]: [None] stands for [KeyError]. *)
Definition cache_getitem (now : Z) (c : cache) (k : key) : option pyval * cache :=
  match c with
  | PyDict d => (d !! k, c)
  | CacheObj b => let (r, b') := bc_get now b k in (r, CacheObj b')
  | UnboundTTL b => let (r, b') := bc_get now b k in (r, UnboundTTL b')
  end.

(** [cache[k] = v]: [None] stands for [ValueError] (value too large). *)
Definition cache_setitem (now : Z) (c : cache) (k : key) (v : pyval) : option cache :=
  match c with
  | PyDict d => Some (PyDict (<[k:=v]> d))
  | CacheObj b => CacheObj <$> bc_put now b k v
  | UnboundTTL b => UnboundTTL <$> bc_put now b k v
  end.

(** [cache.clear()] *)
Definition cache_clear_all (c : cache) : cache :=
  match c with
  | PyDict _ => PyDict ∅
  | CacheObj b => CacheObj (bc_clear b)
  | UnboundTTL b => UnboundTTL (bc_clear b)
  end.

(** Modelled from the spec: [_CacheInfo] is imported by [func.py]; an
    immutable tuple of hits, misses, maxsize and currsize. *)
Record CacheInfo := _CacheInfo {
  ci_hits : nat;
  ci_misses : nat;
  ci_maxsize : option Capacity;
  ci_currsize : nat
}.

(** The variables a wrapper closes over: those of [_cache] ([cache],
    [maxsize], [typed]) and those of [decorator] ([func], [pending],
    [hits], [misses]); and what the function object [wrapper] itself
    holds once [decorator] returns it: its metadata and its [__dict__].
    [cond] is the atomicity of the transitions. *)
Record wrapper := Wrapper {
  func : funobj;
  w_cache : cache;
  w_maxsize : option Z;
  w_typed : bool;
  pending : gset key;
  hits : nat;
  misses : nat;
  w_meta : gmap string attribute;
  w_dict : gmap string attribute
}.

(** [key = keys.typedkey if typed else keys.hashkey] *)
Definition cache_key (w : wrapper) : call_args -> key :=
  if w_typed w then typedkey else hashkey.

Definition set_shared (w : wrapper) (c : cache) (p : gset key) (h m : nat) : wrapper :=
  {| func := func w; w_cache := c; w_maxsize := w_maxsize w; w_typed := w_typed w;
     pending := p; hits := h; misses := m;
     w_meta := w_meta w; w_dict := w_dict w |}.

(** The closure [cache_info] of lines 69-79, in either branch of
    [isinstance(cache, dict)]: what a call of it returns.  It is the
    attribute [cache_info] of the wrapper unless [update_wrapper] put
    another object there (see [call_cache_info]). *)
Definition cache_info (w : wrapper) : CacheInfo :=
  match w_cache w with
  | PyDict d => _CacheInfo (hits w) (misses w) None (size d)
  | c => _CacheInfo (hits w) (misses w) (cache_maxsize c) (cache_currsize c)
  end.

(** The [lambda] of line 86: what a call of it returns. *)
Definition cache_parameters (w : wrapper) : option Z * bool := (w_maxsize w, w_typed w).

(** The closure [cache_clear] of lines 63-67. *)
Definition cache_clear (w : wrapper) : wrapper :=
  set_shared w (cache_clear_all (w_cache w)) (pending w) 0 0.

(** The memoizing wrapper of which the attribute [name] of [w] is the
    member [m]: [w] itself, or one of the memoizing wrappers [below],
    given by their depth down the [__wrapped__] chain of [w]; none when
    the attribute is some other object. *)
Definition bound_to (below : gmap nat wrapper) (w : wrapper) (name : string)
    (m : member) : option wrapper :=
  match w_dict w !! name with
  | Some (Member depth m') =>
      if decide (m' = m) then
        match depth with
        | O => Some w
        | S _ => below !! depth
        end
      else None
  | _ => None
  end.


(** [wrapper.cache_parameters()], likewise. *)
Definition call_cache_parameters (below : gmap nat wrapper) (w : wrapper)
  : option (option Z * bool) :=
  cache_parameters <$> bound_to below w "cache_parameters" MCacheParameters.

(** Where a thread stands in a call of [wrapper]. *)
Inductive tstate :=
| Waiting (a : call_args)              (* about to enter [with cond:] and test [k not in pending] *)
| Asleep (a : call_args)               (* inside [cond.wait_for], until notified *)
| Computing (a : call_args)            (* [k] is pending; about to call [func] *)
| Storing (a : call_args) (v : pyval)  (* [func] returned [v]; about to store it *)
| Finishing (a : call_args) (r : outcome)  (* in [finally:] *)
| Done (a : call_args) (r : outcome).  (* returned [r], or raised it *)

(** The threads calling one wrapper, the reading of the timer, and the
    calls of [func] made so far (a ghost counter on the computation). *)
Record system := System {
  closure : wrapper;
  clock : Z;
  threads : list tstate;
  computed : list call_args
}.

(** A notified thread leaves [cond.wait] and tests its predicate again. *)
Definition wake (t : tstate) : tstate :=
  match t with
  | Asleep a => Waiting a
  | _ => t
  end.

(** [cond.notify_all()] *)
Definition notify_all (ts : list tstate) : list tstate := wake <$> ts.

(** What can happen next to a wrapper and its callers. *)
Inductive action :=
| Run (i : nat)         (* thread [i] makes its next transition *)
| CacheClear            (* some thread calls [cache_clear()] *)
| Tick (d : nat).       (* the timer advances *)

(** The next transition of thread [i], which stands at [t] in [wrapper]:
    - [Waiting]: the first [with cond:] block.  While [k] is pending
      the thread waits; otherwise [cache[k]] is a hit, counted and
      returned, or a [KeyError], counted as a miss with [k] made
      pending;
    - [Computing]: [v = func(...)], outside any lock;
    - [Storing]: [with cond: cache[k] = v], where a [ValueError] is
      passed over;
    - [Finishing]: the [finally:] block, [pending.remove(k)] (a
      [KeyError] if [k] is absent) and [cond.notify_all()], after which
      the thread returns [v] or raises what [func] raised.
    A sleeping thread and a thread that has returned have none. *)
Definition step_thread (s : system) (i : nat) (t : tstate) : option system :=
  let w := closure s in
  match t with
  | Waiting a =>
      let k := cache_key w a in
      if decide (k ∈ pending w) then
        Some (System w (clock s) (<[i := Asleep a]> (threads s)) (computed s))
      else
        match cache_getitem (clock s) (w_cache w) k with
        | (Some result, c) =>
            Some (System (set_shared w c (pending w) (S (hits w)) (misses w)) (clock s)
                    (<[i := Done a (inl result)]> (threads s)) (computed s))
        | (None, c) =>
            Some (System (set_shared w c ({[k]} ∪ pending w) (hits w) (S (misses w)))
                    (clock s) (<[i := Computing a]> (threads s)) (computed s))
        end
  | Asleep _ => None
  | Computing a =>
      match func w a with
      | inl v => Some (System w (clock s) (<[i := Storing a v]> (threads s))
                         (computed s ++ [a]))
      | inr e => Some (System w (clock s) (<[i := Finishing a (inr (Raised e))]> (threads s))
                         (computed s ++ [a]))
      end
  | Storing a v =>
      let k := cache_key w a in
      match cache_setitem (clock s) (w_cache w) k v with
      | Some c =>
          Some (System (set_shared w c (pending w) (hits w) (misses w)) (clock s)
                  (<[i := Finishing a (inl v)]> (threads s)) (computed s))
      | None =>
          Some (System w (clock s) (<[i := Finishing a (inl v)]> (threads s)) (computed s))
      end
  | Finishing a r =>
      let k := cache_key w a in
      if decide (k ∈ pending w) then
        Some (System (set_shared w (w_cache w) (pending w ∖ {[k]}) (hits w) (misses w))
                (clock s) (notify_all (<[i := Done a r]> (threads s))) (computed s))
      else
        Some (System w (clock s) (<[i := Done a (inr KeyError)]> (threads s)) (computed s))
  | Done _ _ => None
  end.

(** One action; [None] when thread [i] does not exist or cannot move. *)
Definition exec (s : system) (act : action) : option system :=
  match act with
  | Run i => t ← threads s !! i; step_thread s i t
  | CacheClear => Some (System (cache_clear (closure s)) (clock s) (threads s) (computed s))
  | Tick d => Some (System (closure s) (clock s + Z.of_nat d) (threads s) (computed s))
  end.

(** A schedule: the actions one after the other. *)
Fixpoint run (s : system) (acts : list action) : option system :=
  match acts with
  | [] => Some s
  | act :: acts' => s' ← exec s act; run s' acts'
  end.

(** The closure [decorator] that [_cache] returns: it holds the cache,
    [maxsize] and [typed]. *)
Record decorator := Decorator {
  d_cache : cache;
  d_maxsize : option Z;
  d_typed : bool
}.

Definition _cache (c : cache) (maxsize : option Z) (typed : bool) : decorator :=
  Decorator c maxsize typed.

(** [decorator(func)], lines 33-88: a fresh condition, an empty pending
    set and zeroed counters around the cache, [maxsize] and [typed] of
    [_cache]; the six attributes are set on [wrapper], and
    [functools.update_wrapper(wrapper, func)] comes last, so that an
    attribute [func] carries under one of the six names replaces the
    wrapper's own. *)
Definition decorate (d : decorator) (f : funobj) : wrapper :=
  {| func := f; w_cache := d_cache d; w_maxsize := d_maxsize d; w_typed := d_typed d;
     pending := ∅; hits := 0; misses := 0;
     w_meta := (update_wrapper wrapper_meta wrapper_members f).1;
     w_dict := (update_wrapper wrapper_meta wrapper_members f).2 |}.

(** A memoizing wrapper as the function object another decorator is
    applied to: its metadata and its [__dict__]; [behaviour] is what a
    call of it returns. *)
Definition as_function (w : wrapper) (behaviour : pyfunc) : funobj :=
  {| fo_call := behaviour; fo_meta := w_meta w; fo_dict := w_dict w |}.

(** The [maxsize] argument of a constructor: [None], a callable (the
    decorator used without parentheses) or a number. *)
Inductive maxsize_arg :=
| ArgNone
| ArgCallable (f : funobj)
| ArgInt (n : Z).

(** A constructor returns a decorator, or the wrapper itself when it was
    given the function. *)
Inductive decorated :=
| ADecorator (d : decorator)
| AWrapper (w : wrapper).

Definition fifo_cache (maxsize : maxsize_arg) (typed : bool) : decorated :=
  match maxsize with
  | ArgNone => ADecorator (_cache (PyDict ∅) None typed)
  | ArgCallable f => AWrapper (decorate (_cache (CacheObj (FIFOCache 128)) (Some 128) typed) f)
  | ArgInt n => ADecorator (_cache (CacheObj (FIFOCache n)) (Some n) typed)
  end.

Definition lfu_cache (maxsize : maxsize_arg) (typed : bool) : decorated :=
  match maxsize with
  | ArgNone => ADecorator (_cache (PyDict ∅) None typed)
  | ArgCallable f => AWrapper (decorate (_cache (CacheObj (LFUCache 128)) (Some 128) typed) f)
  | ArgInt n => ADecorator (_cache (CacheObj (LFUCache n)) (Some n) typed)
  end.

Definition lru_cache (maxsize : maxsize_arg) (typed : bool) : decorated :=
  match maxsize with
  | ArgNone => ADecorator (_cache (PyDict ∅) None typed)
  | ArgCallable f => AWrapper (decorate (_cache (CacheObj (LRUCache 128)) (Some 128) typed) f)
  | ArgInt n => ADecorator (_cache (CacheObj (LRUCache n)) (Some n) typed)
  end.

(** [mru_cache] first warns that it is deprecated; the warning has no
    effect on what it builds. *)
Definition mru_cache (maxsize : maxsize_arg) (typed : bool) : decorated :=
  match maxsize with
  | ArgNone => ADecorator (_cache (PyDict ∅) None typed)
  | ArgCallable f => AWrapper (decorate (_cache (CacheObj (MRUCache 128)) (Some 128) typed) f)
  | ArgInt n => ADecorator (_cache (CacheObj (MRUCache n)) (Some n) typed)
  end.

Definition rr_cache (maxsize : maxsize_arg) (ch : list key -> key) (typed : bool)
  : decorated :=
  match maxsize with
  | ArgNone => ADecorator (_cache (PyDict ∅) None typed)
  | ArgCallable f =>
      AWrapper (decorate (_cache (CacheObj (RRCache 128 ch)) (Some 128) typed) f)
  | ArgInt n => ADecorator (_cache (CacheObj (RRCache n ch)) (Some n) typed)
  end.

Definition ttl_cache (maxsize : maxsize_arg) (t : Z) (typed : bool) : decorated :=
  match maxsize with
  | ArgNone => ADecorator (_cache (_UnboundTTLCache t) None typed)
  | ArgCallable f =>
      AWrapper (decorate (_cache (CacheObj (TTLCache (Finite 128) t)) (Some 128) typed) f)
  | ArgInt n => ADecorator (_cache (CacheObj (TTLCache (Finite n) t)) (Some n) typed)
  end.

(** The six constructors by policy; [ch] and [t] are used by [rr_cache]
    and [ttl_cache] only. *)
Definition constructor (p : Policy) (maxsize : maxsize_arg) (ch : list key -> key)
    (t : Z) (typed : bool) : decorated :=
  match p with
  | FIFO => fifo_cache maxsize typed
  | LFU => lfu_cache maxsize typed
  | LRU => lru_cache maxsize typed
  | MRU => mru_cache maxsize typed
  | RR => rr_cache maxsize ch typed
  | TTL => ttl_cache maxsize t typed
  end.

(** The wrapper of [f], whichever way the constructor was used:
    [@ctor(maxsize)] above [def f], or [@ctor] alone. *)
Definition wrap (d : decorated) (f : funobj) : wrapper :=
  match d with
  | ADecorator dec => decorate dec f
  | AWrapper w => w
  end.

(** The threads of the calls [l], none of which has started. *)
Definition spawn (w : wrapper) (now : Z) (l : list call_args) : system :=
  System w now (Waiting <$> l) [].

(** ** The vocabulary of the properties *)

Local Close Scope Z_scope.

Definition args_of (t : tstate) : call_args :=
  match t with
  | Waiting a | Asleep a | Computing a | Storing a _ | Finishing a _ | Done a _ => a
  end.

(** A thread is in flight from the miss that put its key in [pending]
    until the [finally:] block that removes it. *)
Definition in_flight (t : tstate) : bool :=
  match t with
  | Computing _ | Storing _ _ | Finishing _ _ => true
  | _ => false
  end.

Definition is_done (t : tstate) : bool :=
  match t with
  | Done _ _ => true
  | _ => false
  end.

(** The pending keys are the keys of the threads in flight, no two
    threads are in flight on one key, and a sleeping thread waits for
    a key that is pending. *)
Record guard (kf : call_args -> key) (p : gset key) (ts : list tstate) : Prop := {
  g_pending : forall k, k ∈ p <->
    exists i t, ts !! i = Some t /\ in_flight t = true /\ kf (args_of t) = k;
  g_unique : forall i j t u,
    ts !! i = Some t -> ts !! j = Some u ->
    in_flight t = true -> in_flight u = true ->
    kf (args_of t) = kf (args_of u) -> i = j;
  g_asleep : forall i a, ts !! i = Some (Asleep a) -> kf a ∈ p
}.

Definition guarded (s : system) : Prop :=
  guard (cache_key (closure s)) (pending (closure s)) (threads s).

(** The value [get] returns for a key, without the bookkeeping. *)
Definition live (now : Z) (c : BoundedCache) (k : key) : option pyval :=
  match entries c !! k with
  | None => None
  | Some e =>
      match policy c with
      | TTL => if expired now e then None else Some (e_value e)
      | _ => Some (e_value e)
      end
  end.

Definition peek (now : Z) (c : cache) (k : key) : option pyval :=
  match c with
  | PyDict d => d !! k
  | CacheObj b | UnboundTTL b => live now b k
  end.

Definition started (t : tstate) : bool :=
  match t with
  | Waiting _ | Asleep _ => false
  | _ => true
  end.

Definition computing (t : tstate) : bool :=
  match t with
  | Computing _ => true
  | _ => false
  end.

(** The outcome is known: the thread is in [finally:] or has returned. *)
Definition settled (t : tstate) : bool :=
  match t with
  | Finishing _ _ | Done _ _ => true
  | _ => false
  end.

Definition result_of (t : tstate) : option outcome :=
  match t with
  | Finishing _ r | Done _ r => Some r
  | _ => None
  end.

Definition count (f : tstate -> bool) (ts : list tstate) : nat :=
  sum_list_with (fun t => Nat.b2n (f t)) ts.

(** The threads are those of the calls [l]; every thread that passed the
    lookup was counted as a hit or as a miss; and every miss either is
    about to call [func] or has called it. *)
Record tally (l : list call_args) (s : system) : Prop := {
  t_args : args_of <$> threads s = l;
  t_calls : hits (closure s) + misses (closure s) = count started (threads s);
  t_runs : length (computed s) + count computing (threads s) = misses (closure s)
}.

(** The keys of the threads that passed the lookup. *)
Definition started_keys (kf : call_args -> key) (ts : list tstate) : gset key :=
  list_to_set (omap (fun t => if started t then Some (kf (args_of t)) else None) ts).

(** What the cache holds is what the settled threads hold: a thread
    whose outcome is known has a value, which a lookup of its key
    finds; and a key that a lookup finds is the key of such a thread. *)
Record settled_cached (kf : call_args -> key) (look : key -> option pyval)
    (ts : list tstate) : Prop := {
  sc_settled : forall i t, ts !! i = Some t -> settled t = true ->
    exists v, result_of t = Some (inl v) /\ look (kf (args_of t)) = Some v;
  sc_cached : forall k v, look k = Some v ->
    exists i t, ts !! i = Some t /\ settled t = true /\ kf (args_of t) = k
}.

(** What a lookup of [k] would find in the state [s]. *)
Definition cached (s : system) (k : key) : option pyval :=
  peek (clock s) (w_cache (closure s)) k.

(** A transition that disturbs no key: it is not a [cache_clear()], the
    function did not raise, a stored value is found by the next lookup,
    and what a lookup found before (no eviction, no expiry) it still
    finds. *)
Record undisturbed (s : system) (act : action) (s' : system) : Prop := {
  u_act : act <> CacheClear;
  u_returns : forall i a, act = Run i -> threads s !! i = Some (Computing a) ->
    exists v, func (closure s) a = inl v;
  u_stored : forall i a v, act = Run i -> threads s !! i = Some (Storing a v) ->
    cached s' (cache_key (closure s) a) = Some v;
  u_kept : forall k v, cached s k = Some v -> cached s' k = Some v
}.

(** A run all of whose transitions are undisturbed. *)
Inductive quiet : system -> list action -> system -> Prop :=
| quiet_nil s : quiet s [] s
| quiet_cons s act s1 acts s' :
    exec s act = Some s1 -> undisturbed s act s1 -> quiet s1 acts s' ->
    quiet s (act :: acts) s'.

Definition coherent (s : system) : Prop :=
  settled_cached (cache_key (closure s)) (cached s) (threads s) /\
  misses (closure s) = size (started_keys (cache_key (closure s)) (threads s)).

Definition awaiting (t : tstate) : bool :=
  match t with
  | Computing _ | Storing _ _ => true
  | _ => false
  end.

Definition unstored (s : system) : Prop :=
  forall i t, threads s !! i = Some t -> awaiting t = true ->
    cached s (cache_key (closure s) (args_of t)) = None.

(** A wrapper as [decorator] leaves it: nothing pending, nothing counted,
    nothing cached. *)
Record fresh (w : wrapper) : Prop := {
  f_pending : pending w = ∅;
  f_hits : hits w = 0;
  f_misses : misses w = 0;
  f_empty : forall now k, peek now (w_cache w) k = None
}.

Definition is_dict (c : cache) : Prop :=
  match c with
  | PyDict _ => True
  | _ => False
  end.

Definition completed (s : system) : Prop :=
  Forall (fun t => is_done t = true) (threads s).

(** The number of distinct keys among the calls [l]. *)
Definition distinct_keys (w : wrapper) (l : list call_args) : nat :=
  size (list_to_set (cache_key w <$> l) : gset key).

(** The states a wrapper with nothing pending can be brought to by its
    callers, by [cache_clear()] and by the passing of time. *)
Definition reachable (s : system) : Prop :=
  exists w now l acts, pending w = ∅ /\ run (spawn w now l) acts = Some s.

(** ** Example calls and runs *)

(** A script of [get]s and [put]s on a cache at one reading of the
    timer; a rejected [put] leaves the cache as it is. *)
Inductive cache_op :=
| Put (k : key) (v : pyval)
| Get (k : key).

Fixpoint apply_ops (now : Z) (c : BoundedCache) (ops : list cache_op) : BoundedCache :=
  match ops with
  | [] => c
  | Put k v :: ops' => apply_ops now (default c (bc_put now c k v)) ops'
  | Get k :: ops' => apply_ops now (bc_get now c k).2 ops'
  end.

(** The values a cache holds, by key. *)
Definition held (c : BoundedCache) : list pyval :=
  e_value <$> (map_to_list (entries c)).*2.

Definition kA : key := Key [AStr "A"] [] [].
Definition kB : key := Key [AStr "B"] [] [].
Definition kC : key := Key [AStr "C"] [] [].

Definition call_int (z : Z) : call_args := Call [PInt z] ∅.
Definition call_float (q : Q) : call_args := Call [PFloat q] ∅.

(** [lambda x: x + 1] on integers; any other call raises. *)
Definition successor : pyfunc :=
  fun a =>
    match positional a with
    | [PInt z] => inl (PInt (z + 1))
    | _ => inr "TypeError"%string
    end.

(** A function that returns its first argument. *)
Definition identity : pyfunc :=
  fun a => inl (default (PInt 0) (head (positional a))).

(** A function that always raises. *)
Definition failing : pyfunc := fun _ => inr "RuntimeError"%string.

(** Two callers of [lru_cache(maxsize=None)(identity)], with [1] and
    with [1.0]: the second sleeps while the first computes. *)
Definition two_callers : system :=
  spawn (wrap (lru_cache ArgNone false) identity) 0 [call_int 1; call_float 1].

Definition two_callers_schedule : list action :=
  [Run 0; Run 1; Run 0; Run 0; Run 0; Run 1].

Definition two_callers_done : system :=
  Eval vm_compute in default two_callers (run two_callers two_callers_schedule).

(** Three callers of [fifo_cache(maxsize=None)(identity)], with [1],
    [2] and [1.0], one after the other. *)
Definition three_callers : system :=
  spawn (wrap (fifo_cache ArgNone false) identity) 0
    [call_int 1; call_int 2; call_float 1].

Definition three_callers_schedule : list action :=
  [Run 0; Run 0; Run 0; Run 0; Run 1; Run 1; Run 1; Run 1; Run 2].

Definition three_callers_done : system :=
  Eval vm_compute in default three_callers (run three_callers three_callers_schedule).

(** A caller of [lru_cache(maxsize=0)(identity)] that has computed its
    value and is about to store it: every value is too large. *)
Definition oversized_store : system :=
  Eval vm_compute in
    default (spawn (wrap (lru_cache (ArgInt 0) false) identity) 0 [call_int 1])
      (run (spawn (wrap (lru_cache (ArgInt 0) false) identity) 0 [call_int 1])
         [Run 0; Run 0]).

(** Two callers of [fifo_cache(maxsize=2)] around a function that
    raises: the first is in its [finally:], the second sleeps. *)
Definition raised_with_waiter : system :=
  Eval vm_compute in
    default (spawn (wrap (fifo_cache (ArgInt 2) false) failing) 0 [call_int 1; call_int 1])
      (run (spawn (wrap (fifo_cache (ArgInt 2) false) failing) 0 [call_int 1; call_int 1])
         [Run 0; Run 1; Run 0]).

(** Two callers of [lru_cache(maxsize=128)(identity)] with [1]: the
    first has returned and its value is cached, the second has not
    started. *)
Definition warm_cache : system :=
  Eval vm_compute in
    default (spawn (wrap (lru_cache (ArgInt 128) false) identity) 0 [call_int 1; call_int 1])
      (run (spawn (wrap (lru_cache (ArgInt 128) false) identity) 0
              [call_int 1; call_int 1])
         [Run 0; Run 0; Run 0; Run 0]).

(** The cache behind [ttl_cache(maxsize=None)]: a TTL cache of infinite
    capacity. *)
Definition unbounded_ttl (c : cache) : Prop :=
  match c with
  | UnboundTTL b => policy b = TTL /\ capacity b = Infinite
  | _ => False
  end.

(** Three callers of [ttl_cache(maxsize=None, ttl=5)(identity)], with
    [1], [2] and [1], one after the other; the timer advances by 5
    after the first, so the third finds the entry of [1] expired. *)
Definition ttl_callers : system :=
  spawn (wrap (ttl_cache ArgNone 5 false) identity) 0
    [call_int 1; call_int 2; call_int 1].

Definition ttl_callers_schedule : list action :=
  [Run 0; Run 0; Run 0; Run 0; Tick 5;
   Run 1; Run 1; Run 1; Run 1; Run 2; Run 2; Run 2; Run 2].

Definition ttl_callers_done : system :=
  Eval vm_compute in default ttl_callers (run ttl_callers ttl_callers_schedule).





(** ** Outcomes, provenance and progress *)

(** What a caller gets from [func]: its value, or the error it raised. *)
Definition outcome_of (r : pyval + string) : outcome :=
  match r with
  | inl v => inl v
  | inr e => inr (Raised e)
  end.

(** A call that has not returned yet. *)
Definition unfinished (t : tstate) : bool := negb (is_done t).

(** The thread has its outcome, from the cache or from [func]: it will
    not call [func] any more. *)
Definition served (t : tstate) : bool :=
  match t with
  | Storing _ _ | Finishing _ _ | Done _ _ => true
  | _ => false
  end.

(** An error a thread holds is the error [func] raised on the thread's
    own arguments. *)
Definition raised_by_func (s : system) : Prop :=
  forall i t r, threads s !! i = Some t -> result_of t = Some (inr r) ->
    exists e, r = Raised e /\ func (closure s) (args_of t) = inr e.

(** [func] was called with arguments of key [k] and returned [v]. *)
Definition produced (s : system) (k : key) (v : pyval) : Prop :=
  exists b, b ∈ computed s /\ cache_key (closure s) b = k /\ func (closure s) b = inl v.

(** Every value in the cache, every value about to be stored and every
    value a thread holds was returned by a call of [func] on arguments
    of that key. *)
Record provenance (s : system) : Prop := {
  p_cached : forall k v, cached s k = Some v -> produced s k v;
  p_storing : forall i a v, threads s !! i = Some (Storing a v) ->
    a ∈ computed s /\ func (closure s) a = inl v;
  p_value : forall i t v, threads s !! i = Some t -> result_of t = Some (inl v) ->
    produced s (cache_key (closure s) (args_of t)) v
}.

(** A thread in flight that has put nothing in the cache: it has not
    stored yet, or [func] raised. *)
Definition unsaved (t : tstate) : bool :=
  match t with
  | Computing _ | Storing _ _ | Finishing _ (inr _) => true
  | _ => false
  end.

Definition uncached (s : system) : Prop :=
  forall i t, threads s !! i = Some t -> unsaved t = true ->
    cached s (cache_key (closure s) (args_of t)) = None.

(** The transitions a thread has before it, not counting those it
    makes again after it was woken. *)
Definition effort (t : tstate) : nat :=
  match t with
  | Waiting _ => 5
  | Asleep _ => 4
  | Computing _ => 3
  | Storing _ _ => 2
  | Finishing _ _ => 1
  | Done _ _ => 0
  end.

(** A measure every transition of a thread lowers: a [notify_all()]
    sends at most every other unfinished thread back to its test, and
    is paid for by the square. *)
Definition potential (ts : list tstate) : nat :=
  sum_list_with effort ts + count unfinished ts * count unfinished ts.

(** The number of transitions of threads in a schedule. *)
Definition transitions (acts : list action) : nat :=
  sum_list_with (fun act => match act with Run _ => 1 | _ => 0 end) acts.

(** A function that ignores its arguments. *)
Definition constant_zero : pyfunc := fun _ => inl (PInt 0).

(** The [maxsize] a constructor passes to [_cache]. *)
Definition given_maxsize (m : maxsize_arg) : option Z :=
  match m with
  | ArgNone => None
  | ArgCallable _ => Some 128%Z
  | ArgInt n => Some n
  end.

(** [fifo_cache(maxsize=5, typed=True)(constant_zero)], and that wrapper
    as the function a second decorator is applied to: a call of it
    returns 0. *)
Definition memo5 : wrapper := wrap (fifo_cache (ArgInt 5) true) constant_zero.

Definition memo5_function : funobj := as_function memo5 constant_zero.

(** [lru_cache(maxsize=None)(memo5)]; one step down its [__wrapped__]
    chain is [memo5]. *)
Definition stacked : wrapper := wrap (lru_cache ArgNone false) memo5_function.

Definition stacked_below : gmap nat wrapper := {[1 := memo5]}.

(** Two callers of [lru_cache(maxsize=None)(constant_zero)], with [1] and with
    [1.0], one after the other. *)
Definition zero_callers : system :=
  spawn (wrap (lru_cache ArgNone false) constant_zero) 0 [call_int 1; call_float 1].

Definition zero_callers_schedule : list action :=
  [Run 0; Run 0; Run 0; Run 0; Run 1].

Definition zero_callers_done : system :=
  Eval vm_compute in default zero_callers (run zero_callers zero_callers_schedule).

(** Two callers of [fifo_cache(maxsize=2)] around a function that
    raises: the first has raised, the second is awake again. *)
Definition raised_and_returned : system :=
  Eval vm_compute in
    default (spawn (wrap (fifo_cache (ArgInt 2) false) failing) 0 [call_int 1; call_int 1])
      (run (spawn (wrap (fifo_cache (ArgInt 2) false) failing) 0 [call_int 1; call_int 1])
         [Run 0; Run 1; Run 0; Run 0]).

(** * Properties *)

(** ** Threads and their keys *)

Lemma notify_all_lookup (ts : list tstate) (j : nat) :
  notify_all ts !! j = wake <$> ts !! j.
Proof. unfold notify_all. by rewrite list_lookup_fmap. Qed.

Lemma in_flight_wake t : in_flight (wake t) = in_flight t.
Proof. by destruct t. Qed.

Lemma args_of_wake t : args_of (wake t) = args_of t.
Proof. by destruct t. Qed.

Lemma lookup_update (ts : list tstate) (i j : nat) (t t' u : tstate) :
  ts !! i = Some t ->
  <[i := t']> ts !! j = Some u <-> (i = j /\ u = t') \/ (i <> j /\ ts !! j = Some u).
Proof.
  intros Hi. destruct (decide (i = j)) as [->|Hne].
  - rewrite list_lookup_insert_eq by (eapply lookup_lt_Some; eauto).
    split; [intros [= <-]; by left | intros [[_ ->]|[? _]]; done].
  - rewrite list_lookup_insert_ne by done.
    split; [by right | intros [[? _]|[_ ?]]; done].
Qed.

Lemma cache_key_set_shared w c p h m : cache_key (set_shared w c p h m) = cache_key w.
Proof. reflexivity. Qed.

Lemma cache_key_clear w : cache_key (cache_clear w) = cache_key w.
Proof. reflexivity. Qed.

(** ** The pending set guards the keys in flight *)

Section Guard.

Variable kf : call_args -> key.

Lemma guard_init (l : list call_args) : guard kf ∅ (Waiting <$> l).
Proof.
  split.
  - intros k. split; [set_solver|]. intros (i & t & Ht & Hf & _).
    rewrite list_lookup_fmap in Ht. destruct (l !! i); simplify_eq/=.
  - intros i j t u Ht _ Hf.
    rewrite list_lookup_fmap in Ht. destruct (l !! i); simplify_eq/=.
  - intros i a Ht.
    rewrite list_lookup_fmap in Ht. destruct (l !! i); simplify_eq/=.
Qed.

(** A transition that keeps a thread on its side of the guard. *)
Lemma guard_same p ts i t t' :
  guard kf p ts -> ts !! i = Some t ->
  in_flight t' = in_flight t -> args_of t' = args_of t ->
  (forall a, t' = Asleep a -> kf a ∈ p) ->
  guard kf p (<[i := t']> ts).
Proof.
  intros [Hp Hu Ha] Hi Hf Hargs Hsl. split.
  - intros k. rewrite Hp. split; intros (j & u & Hj & Hfu & Hk).
    + destruct (decide (i = j)) as [->|Hne].
      * exists j, t'. rewrite (lookup_update _ _ _ _ _ _ Hi). simplify_eq.
        rewrite Hf, Hargs. auto.
      * exists j, u. rewrite (lookup_update _ _ _ _ _ _ Hi). auto.
    + apply (lookup_update _ _ _ _ _ _ Hi) in Hj as [[-> ->]|[Hne Hj]].
      * exists j, t. rewrite <- Hf, <- Hargs. auto.
      * exists j, u. auto.
  - intros j1 j2 u1 u2 H1 H2 F1 F2 Hk.
    apply (lookup_update _ _ _ _ _ _ Hi) in H1 as [[<- ->]|[N1 H1]];
      apply (lookup_update _ _ _ _ _ _ Hi) in H2 as [[<- ->]|[N2 H2]]; [done|..].
    + rewrite Hf in F1. rewrite Hargs in Hk. eauto.
    + rewrite Hf in F2. rewrite Hargs in Hk. eauto.
    + eauto.
  - intros j a Hj.
    apply (lookup_update _ _ _ _ _ _ Hi) in Hj as [[<- Heq]|[N1 H1]]; eauto.
Qed.

(** A miss: the thread puts its key, which was not pending, in flight. *)
Lemma guard_enter p ts i t t' :
  guard kf p ts -> ts !! i = Some t ->
  in_flight t = false -> in_flight t' = true -> kf (args_of t') ∉ p ->
  guard kf ({[kf (args_of t')]} ∪ p) (<[i := t']> ts).
Proof.
  intros [Hp Hu Ha] Hi Hf Hf' Hk. split.
  - intros k. rewrite elem_of_union, elem_of_singleton, Hp.
    split.
    + intros [->|(j & u & Hj & Hfu & Hku)].
      * exists i, t'. rewrite (lookup_update _ _ _ _ _ _ Hi). auto.
      * exists j, u. rewrite (lookup_update _ _ _ _ _ _ Hi).
        split; [right; split; [congruence|done]|done].
    + intros (j & u & Hj & Hfu & Hku).
      apply (lookup_update _ _ _ _ _ _ Hi) in Hj as [[-> ->]|[Hne Hj]]; eauto 6.
  - intros j1 j2 u1 u2 H1 H2 F1 F2 Hku.
    apply (lookup_update _ _ _ _ _ _ Hi) in H1 as [[<- ->]|[N1 H1]];
      apply (lookup_update _ _ _ _ _ _ Hi) in H2 as [[<- ->]|[N2 H2]]; [done|..].
    + exfalso. apply Hk, Hp. eauto.
    + exfalso. apply Hk, Hp. eauto.
    + eauto.
  - intros j a Hj. apply elem_of_union. right.
    apply (lookup_update _ _ _ _ _ _ Hi) in Hj as [[<- Heq]|[N1 H1]]; [|eauto].
    subst t'. discriminate Hf'.
Qed.

(** The [finally:] block: the key leaves the pending set and every
    sleeping thread is woken. *)
Lemma guard_leave p ts i t t' :
  guard kf p ts -> ts !! i = Some t ->
  in_flight t = true -> is_done t' = true ->
  guard kf (p ∖ {[kf (args_of t)]}) (notify_all (<[i := t']> ts)).
Proof.
  intros [Hp Hu Ha] Hi Hf Hd. split.
  - intros k. rewrite elem_of_difference, elem_of_singleton, Hp. split.
    + intros [(j & u & Hj & Hfu & Hku) Hne].
      exists j, (wake u). rewrite notify_all_lookup, in_flight_wake, args_of_wake.
      assert (i <> j) by (intros ->; congruence).
      rewrite list_lookup_insert_ne by done. by rewrite Hj.
    + intros (j & u & Hj & Hfu & Hku). rewrite notify_all_lookup in Hj.
      destruct (_ !! j) as [u0|] eqn:Hj0; simplify_eq/=.
      rewrite in_flight_wake in Hfu. rewrite args_of_wake.
      apply (lookup_update _ _ _ _ _ _ Hi) in Hj0 as [[-> ->]|[Hne Hj]].
      * destruct t'; done.
      * split; [eauto|]. intros Heq. apply Hne. eauto.
  - intros j1 j2 u1 u2 H1 H2 F1 F2 Hku.
    rewrite notify_all_lookup in H1, H2.
    destruct (_ !! j1) as [v1|] eqn:E1; simplify_eq/=.
    destruct (_ !! j2) as [v2|] eqn:E2; simplify_eq/=.
    rewrite in_flight_wake in F1, F2. rewrite !args_of_wake in Hku.
    apply (lookup_update _ _ _ _ _ _ Hi) in E1 as [[<- ->]|[N1 E1]];
      [destruct t'; done|].
    apply (lookup_update _ _ _ _ _ _ Hi) in E2 as [[<- ->]|[N2 E2]];
      [destruct t'; done|].
    eauto.
  - intros j a Hj. rewrite notify_all_lookup in Hj.
    destruct (_ !! j) as [v|]; simplify_eq/=. destruct v; done.
Qed.

End Guard.

Lemma guarded_spawn w now l : pending w = ∅ -> guarded (spawn w now l).
Proof. intros Hp. unfold guarded. simpl. rewrite Hp. apply guard_init. Qed.

Lemma guarded_exec s act s' : guarded s -> exec s act = Some s' -> guarded s'.
Proof.
  unfold guarded. intros G Hex. destruct act as [i| |d]; simpl in Hex.
  - destruct (threads s !! i) as [t|] eqn:Hi; simpl in Hex; [|done].
    destruct t; simpl in Hex; repeat case_match; simplify_eq; simpl;
      try rewrite cache_key_set_shared.
    + eapply guard_same; eauto. by intros ? [= <-].
    + eapply guard_same; eauto. done.
    + by apply (guard_enter _ _ _ _ _ (Computing a) G Hi).
    + eapply guard_same; eauto. done.
    + eapply guard_same; eauto. done.
    + eapply guard_same; eauto. done.
    + eapply guard_same; eauto. done.
    + by apply (guard_leave _ _ _ _ _ (Done a r) G Hi).
    + exfalso. match goal with H : _ ∉ _ |- _ => apply H end.
      apply (g_pending _ _ _ G). eauto.
  - by simplify_eq.
  - by simplify_eq.
Qed.

Lemma guarded_run acts : forall s s', guarded s -> run s acts = Some s' -> guarded s'.
Proof.
  induction acts as [|act acts IH]; intros s s' G Hr; simpl in Hr; [by simplify_eq|].
  destruct (exec s act) as [s1|] eqn:He; simpl in Hr; [|done].
  eapply IH; [|done]. eapply guarded_exec; eauto.
Qed.

(** ** The cache classes on the test cases of the specification *)

(** FIFO: with capacity 2, A, B, then C evicts A, whatever the
    [get(A)] in between. *)
Lemma fifo_order :
  held (apply_ops 0 (FIFOCache 2)
          [Put kA (PStr "a"); Put kB (PStr "b"); Get kA; Put kC (PStr "c")])
  = [PStr "c"; PStr "b"].
Proof. vm_compute. reflexivity. Qed.

(** LRU: A, B, [get(A)], then C evicts B. *)
Lemma lru_order :
  held (apply_ops 0 (LRUCache 2)
          [Put kA (PStr "a"); Put kB (PStr "b"); Get kA; Put kC (PStr "c")])
  = [PStr "c"; PStr "a"].
Proof. vm_compute. reflexivity. Qed.

(** MRU: A, B, [get(B)], then C evicts B. *)
Lemma mru_order :
  held (apply_ops 0 (MRUCache 2)
          [Put kA (PStr "a"); Put kB (PStr "b"); Get kB; Put kC (PStr "c")])
  = [PStr "c"; PStr "a"].
Proof. vm_compute. reflexivity. Qed.

(** LFU: A read three times, B once, then C evicts B. *)
Lemma lfu_order :
  held (apply_ops 0 (LFUCache 2)
          [Put kA (PStr "a"); Put kB (PStr "b");
           Get kA; Get kA; Get kA; Get kB; Put kC (PStr "c")])
  = [PStr "c"; PStr "a"].
Proof. vm_compute. reflexivity. Qed.

(** TTL: with a time-to-live of 5, an entry put at 0 is found at 4 and
    absent at 5, and its slot is free for another key. *)
Lemma ttl_expiry :
  (bc_get 4 (apply_ops 0 (TTLCache (Finite 1) 5) [Put kA (PStr "a")]) kA).1
  = Some (PStr "a") /\
  (bc_get 5 (apply_ops 0 (TTLCache (Finite 1) 5) [Put kA (PStr "a")]) kA).1 = None /\
  held (apply_ops 5 (apply_ops 0 (TTLCache (Finite 1) 5) [Put kA (PStr "a")])
          [Put kB (PStr "b")])
  = [PStr "b"].
Proof. vm_compute. done. Qed.

(** A value never fits a cache of capacity 0. *)
Lemma value_too_large : bc_put 0 (FIFOCache 0) kA (PStr "a") = None.
Proof. reflexivity. Qed.

(** ** What a lookup finds *)

Lemma bc_get_live now c k : (bc_get now c k).1 = live now c k.
Proof.
  unfold bc_get, live. destruct (entries c !! k); [|done].
  destruct (policy c); try done. by destruct (expired now _).
Qed.

Lemma cache_getitem_peek now c k : (cache_getitem now c k).1 = peek now c k.
Proof.
  destruct c as [d|b|b]; simpl; [done|..];
    rewrite <- bc_get_live; by destruct (bc_get now b k).
Qed.

Lemma policy_touch c k : policy (touch c k) = policy c.
Proof. unfold touch. by destruct (policy c) eqn:Hp. Qed.

Lemma live_touch now c k k' : live now (touch c k) k' = live now c k'.
Proof.
  unfold live. rewrite policy_touch. unfold touch.
  destruct (policy c) eqn:Hp; simpl; try done.
  all: rewrite lookup_alter; case_decide; subst;
    destruct (entries c !! k') as [e|]; simpl; try done.
Qed.

(** A lookup changes the answer to no later lookup. *)
Lemma live_bc_get now c k k' : live now (bc_get now c k).2 k' = live now c k'.
Proof.
  unfold bc_get. destruct (entries c !! k) as [e|] eqn:He; [|done].
  destruct (policy c) eqn:Hp; simpl; try apply live_touch.
  destruct (expired now e) eqn:Hx; simpl; [|apply live_touch].
  unfold live. simpl. rewrite Hp.
  destruct (decide (k = k')) as [<-|Hne].
  - rewrite lookup_delete_eq, He. by rewrite Hx.
  - by rewrite lookup_delete_ne.
Qed.

Lemma peek_getitem now c k k' : peek now (cache_getitem now c k).2 k' = peek now c k'.
Proof.
  destruct c as [d|b|b]; simpl; [done|..].
  all: pose proof (live_bc_get now b k k') as H;
    destruct (bc_get now b k); simpl in *; done.
Qed.

Lemma evict_lookup now c k e :
  entries (evict now c) !! k = Some e -> entries c !! k = Some e.
Proof.
  unfold evict.
  assert (Hpu : entries (purge now c) !! k = Some e -> entries c !! k = Some e).
  { unfold purge. destruct (policy c); simpl; try done.
    intros H. by apply map_lookup_filter_Some in H as [? _]. }
  destruct (is_full (purge now c)); [|done].
  destruct (victim (purge now c)) as [kv|]; simpl; [|done].
  intros H. apply Hpu. destruct (decide (kv = k)) as [->|Hne].
  - by rewrite lookup_delete_eq in H.
  - by rewrite lookup_delete_ne in H.
Qed.

Lemma policy_evict now c : policy (evict now c) = policy c.
Proof.
  unfold evict, purge.
  destruct (policy c) eqn:Hp; simpl; repeat case_match; simpl; done.
Qed.

(** A store gives no value to another key. *)
Lemma live_bc_put now c k v c' k' v' :
  bc_put now c k v = Some c' -> k' <> k ->
  live now c' k' = Some v' -> live now c k' = Some v'.
Proof.
  unfold bc_put. destruct (too_large c); [done|].
  destruct (entries c !! k) as [e|] eqn:He; intros [= <-] Hne.
  - rewrite live_touch. unfold live. simpl.
    rewrite lookup_alter. case_decide; [congruence|done].
  - set (c1 := if is_full c then evict now c else c).
    assert (Hpol : policy c1 = policy c).
    { unfold c1. destruct (is_full c); [apply policy_evict|done]. }
    assert (Hsub : forall e', entries c1 !! k' = Some e' -> entries c !! k' = Some e').
    { unfold c1. destruct (is_full c); [apply evict_lookup|done]. }
    unfold live. simpl. rewrite lookup_insert_ne by done. rewrite Hpol.
    destruct (entries c1 !! k') as [e'|] eqn:He'; [|done].
    by rewrite (Hsub e' eq_refl).
Qed.

Lemma peek_setitem now c k v c' k' v' :
  cache_setitem now c k v = Some c' -> k' <> k ->
  peek now c' k' = Some v' -> peek now c k' = Some v'.
Proof.
  destruct c as [d|b|b]; simpl.
  - intros [= <-] Hne. simpl. by rewrite lookup_insert_ne.
  - destruct (bc_put now b k v) as [b'|] eqn:Hb; intros [= <-]; simpl.
    eauto using live_bc_put.
  - destruct (bc_put now b k v) as [b'|] eqn:Hb; intros [= <-]; simpl.
    eauto using live_bc_put.
Qed.

(** Time gives no value to a key. *)
Lemma peek_later now d c k v :
  peek (now + Z.of_nat d) c k = Some v -> peek now c k = Some v.
Proof.
  destruct c as [m|b|b]; simpl; [done|..].
  all: unfold live; destruct (entries b !! k) as [e|]; [|done].
  all: destruct (policy b); try done.
  all: unfold expired.
  all: destruct (Z.leb_spec (e_exp e) (now + Z.of_nat d));
    destruct (Z.leb_spec (e_exp e) now); try done; lia.
Qed.

(** A cleared cache holds nothing. *)
Lemma peek_clear now c k : peek now (cache_clear_all c) k = None.
Proof. destruct c; done. Qed.

(** ** Counting threads *)

Lemma count_update f ts : forall i t t',
  ts !! i = Some t ->
  count f (<[i := t']> ts) + Nat.b2n (f t) = count f ts + Nat.b2n (f t').
Proof.
  unfold count. induction ts as [|u ts IH]; intros [|i] t t' Hi; simplify_eq/=.
  - lia.
  - specialize (IH i t t' Hi). lia.
Qed.

Lemma count_notify f ts :
  (forall t, f (wake t) = f t) -> count f (notify_all ts) = count f ts.
Proof.
  intros Hf. unfold count, notify_all.
  induction ts as [|u ts IH]; [done|].
  rewrite fmap_cons. simpl. by rewrite Hf, IH.
Qed.

Lemma count_all f ts :
  (forall i t, ts !! i = Some t -> f t = true) -> count f ts = length ts.
Proof.
  unfold count. induction ts as [|u ts IH]; intros H; simpl; [done|].
  rewrite (H 0 u eq_refl). simpl. f_equal. apply IH.
  intros i t Hi. apply (H (S i) t Hi).
Qed.

Lemma count_none f ts :
  (forall i t, ts !! i = Some t -> f t = false) -> count f ts = 0.
Proof.
  unfold count. induction ts as [|u ts IH]; intros H; simpl; [done|].
  rewrite (H 0 u eq_refl). simpl. apply IH.
  intros i t Hi. apply (H (S i) t Hi).
Qed.

Lemma args_update (ts : list tstate) (i : nat) t t' :
  ts !! i = Some t -> args_of t' = args_of t ->
  args_of <$> <[i := t']> ts = args_of <$> ts.
Proof.
  intros Hi Ha. rewrite list_fmap_insert, Ha.
  apply list_insert_id. by rewrite list_lookup_fmap, Hi.
Qed.

Lemma args_notify (ts : list tstate) : args_of <$> notify_all ts = args_of <$> ts.
Proof.
  unfold notify_all. rewrite <- list_fmap_compose.
  apply list_fmap_ext. intros ? t ?. by destruct t.
Qed.

(** ** Each call is counted once *)

Lemma tally_spawn w now l : hits w = 0 -> misses w = 0 -> tally l (spawn w now l).
Proof.
  intros Hh Hm. split; simpl.
  - rewrite <- list_fmap_compose. apply list_fmap_id.
  - rewrite Hh, Hm. symmetry. apply count_none.
    intros i t Hi. rewrite list_lookup_fmap in Hi. destruct (l !! i); by simplify_eq/=.
  - rewrite Hm. apply count_none.
    intros i t Hi. rewrite list_lookup_fmap in Hi. destruct (l !! i); by simplify_eq/=.
Qed.

Lemma tally_exec l s act s' :
  tally l s -> act <> CacheClear -> exec s act = Some s' -> tally l s'.
Proof.
  intros [Ha Hc Hr] Hact Hex. destruct act as [i| |d]; simpl in Hex; [|done|].
  - destruct (threads s !! i) as [t|] eqn:Hi; simpl in Hex; [|done].
    pose proof (fun t' => count_update started _ _ _ t' Hi) as Cs.
    pose proof (fun t' => count_update computing _ _ _ t' Hi) as Cc.
    destruct t; simpl in Hex; repeat case_match; simplify_eq; split; simpl;
      rewrite ?args_notify, ?count_notify by (by intros []);
      try (by erewrite args_update by (done || reflexivity)).
    all: match goal with
         | |- context [<[_ := ?t']> _] => specialize (Cs t'); specialize (Cc t')
         end; simpl in *; rewrite ?length_app; simpl; lia.
  - by simplify_eq.
Qed.

(** ** Each key is missed once *)

Section Coherence.

Variable kf : call_args -> key.

Lemma elem_started_keys ts k :
  k ∈ started_keys kf ts <->
  exists i t, ts !! i = Some t /\ started t = true /\ kf (args_of t) = k.
Proof.
  unfold started_keys. rewrite elem_of_list_to_set, list_elem_of_omap. split.
  - intros (t & Ht & Hk). apply list_elem_of_lookup in Ht as [i Hi].
    exists i, t. destruct (started t); by simplify_eq.
  - intros (i & t & Hi & Hs & Hk). exists t. split.
    + apply list_elem_of_lookup. eauto.
    + by rewrite Hs, Hk.
Qed.

Lemma started_keys_same ts i t t' :
  ts !! i = Some t -> started t' = started t -> args_of t' = args_of t ->
  started_keys kf (<[i := t']> ts) = started_keys kf ts.
Proof.
  intros Hi Hs Ha. apply set_eq. intros k. rewrite !elem_started_keys. split.
  - intros (j & u & Hj & Hu & Hk).
    apply (lookup_update _ _ _ _ _ _ Hi) in Hj as [[<- ->]|[Hne Hj]].
    + exists i, t. by rewrite <- Hs, <- Ha.
    + eauto.
  - intros (j & u & Hj & Hu & Hk). destruct (decide (i = j)) as [<-|Hne].
    + exists i, t'. rewrite (lookup_update _ _ _ _ _ _ Hi). simplify_eq.
      rewrite Hs, Ha. auto.
    + exists j, u. rewrite (lookup_update _ _ _ _ _ _ Hi). auto.
Qed.

Lemma started_keys_enter ts i t t' :
  ts !! i = Some t -> started t = false -> started t' = true ->
  started_keys kf (<[i := t']> ts) = {[kf (args_of t')]} ∪ started_keys kf ts.
Proof.
  intros Hi Hs Hs'. apply set_eq. intros k.
  rewrite elem_of_union, elem_of_singleton, !elem_started_keys. split.
  - intros (j & u & Hj & Hu & Hk).
    apply (lookup_update _ _ _ _ _ _ Hi) in Hj as [[<- ->]|[Hne Hj]]; eauto 6.
  - intros [->|(j & u & Hj & Hu & Hk)].
    + exists i, t'. rewrite (lookup_update _ _ _ _ _ _ Hi). auto.
    + exists j, u. rewrite (lookup_update _ _ _ _ _ _ Hi).
      split; [right; split; [congruence|done]|done].
Qed.

Lemma started_keys_notify ts : started_keys kf (notify_all ts) = started_keys kf ts.
Proof.
  apply set_eq. intros k. rewrite !elem_started_keys. split.
  - intros (j & u & Hj & Hu & Hk). rewrite notify_all_lookup in Hj.
    destruct (ts !! j) as [u0|] eqn:E; simplify_eq/=.
    exists j, u0. by destruct u0.
  - intros (j & u & Hj & Hu & Hk). exists j, (wake u).
    rewrite notify_all_lookup, Hj. by destruct u.
Qed.

Lemma settled_cached_update look look' ts i t t' :
  settled_cached kf look ts -> ts !! i = Some t ->
  args_of t' = args_of t ->
  (settled t = true -> settled t' = true) ->
  (forall k v, look k = Some v -> look' k = Some v) ->
  (settled t' = true ->
   exists v, result_of t' = Some (inl v) /\ look' (kf (args_of t)) = Some v) ->
  (forall k v, look' k = Some v ->
     look k = Some v \/ (settled t' = true /\ k = kf (args_of t))) ->
  settled_cached kf look' (<[i := t']> ts).
Proof.
  intros [Hs Hc] Hi Ha Hmono Hkept Hnew Hgain. split.
  - intros j u Hj Hu.
    apply (lookup_update _ _ _ _ _ _ Hi) in Hj as [[<- ->]|[Hne Hj]].
    + rewrite Ha. auto.
    + destruct (Hs j u Hj Hu) as (v & Hr & Hl). eauto.
  - intros k v Hl. destruct (Hgain k v Hl) as [Hold|[Hst ->]].
    + destruct (Hc k v Hold) as (j & u & Hj & Hu & Hk).
      destruct (decide (i = j)) as [<-|Hne].
      * exists i, t'. rewrite (lookup_update _ _ _ _ _ _ Hi). simplify_eq.
        rewrite Ha. auto.
      * exists j, u. rewrite (lookup_update _ _ _ _ _ _ Hi). auto.
    + exists i, t'. rewrite (lookup_update _ _ _ _ _ _ Hi). rewrite Ha. auto.
Qed.

Lemma settled_cached_notify look ts :
  settled_cached kf look ts -> settled_cached kf look (notify_all ts).
Proof.
  intros [Hs Hc]. split.
  - intros j u Hj Hu. rewrite notify_all_lookup in Hj.
    destruct (ts !! j) as [u0|] eqn:E; simplify_eq/=.
    assert (Hu0 : settled u0 = true) by (by destruct u0).
    destruct (Hs j u0 E Hu0) as (v & Hr & Hl). exists v. by destruct u0.
  - intros k v Hl. destruct (Hc k v Hl) as (j & u & Hj & Hu & Hk).
    exists j, (wake u). rewrite notify_all_lookup, Hj. by destruct u.
Qed.

Lemma settled_cached_look look look' ts :
  settled_cached kf look ts ->
  (forall k v, look k = Some v -> look' k = Some v) ->
  (forall k v, look' k = Some v -> look k = Some v) ->
  settled_cached kf look' ts.
Proof.
  intros [Hs Hc] Hkept Hgain. split.
  - intros j u Hj Hu. destruct (Hs j u Hj Hu) as (v & Hr & Hl). eauto.
  - intros k v Hl. eauto.
Qed.

End Coherence.

Lemma quiet_run s acts s' : quiet s acts s' -> run s acts = Some s'.
Proof. induction 1 as [|s act s1 acts s' He _ _ IH]; simpl; [done|]. by rewrite He. Qed.

Lemma coherent_spawn w now l :
  misses w = 0 -> (forall k, peek now (w_cache w) k = None) ->
  coherent (spawn w now l).
Proof.
  intros Hm Hempty. split; [split|].
  - intros i t Hi Hs. simpl in Hi. rewrite list_lookup_fmap in Hi.
    destruct (l !! i); simplify_eq/=.
  - intros k v Hl. unfold cached in Hl. simpl in Hl. by rewrite Hempty in Hl.
  - simpl. rewrite Hm. symmetry. apply size_empty_iff. apply set_equiv. intros k.
    rewrite elem_started_keys. split; [|set_solver].
    intros (i & t & Hi & Hs & _). rewrite list_lookup_fmap in Hi.
    destruct (l !! i); simplify_eq/=.
Qed.

Lemma settled_started t : settled t = true -> started t = true.
Proof. by destruct t. Qed.

Lemma started_cases t :
  started t = true -> in_flight t = true \/ (settled t = true /\ in_flight t = false).
Proof. destruct t; simpl; auto. Qed.

Lemma coherent_exec s act s' :
  guarded s -> coherent s -> exec s act = Some s' -> undisturbed s act s' ->
  coherent s'.
Proof.
  intros G [SC Hm] Hex [Hact Hret Hsto Hkept].
  destruct act as [i| |d]; simpl in Hex; [|done|].
  - destruct (threads s !! i) as [t|] eqn:Hi; simpl in Hex; [|done].
    specialize (Hret i). specialize (Hsto i).
    destruct t as [a|a|a|a v|a r|a r]; simpl in Hex.
    + (* the lookup *)
      destruct (decide (cache_key (closure s) a ∈ pending (closure s))) as [Hin|Hout].
      * simplify_eq. split; simpl; rewrite ?cache_key_set_shared.
        -- eapply settled_cached_update; eauto; simpl; done.
        -- by erewrite started_keys_same by (done || reflexivity).
      * pose proof (cache_getitem_peek (clock s) (w_cache (closure s))
                      (cache_key (closure s) a)) as Hpk.
        pose proof (peek_getitem (clock s) (w_cache (closure s))
                      (cache_key (closure s) a)) as Hfr.
        destruct (cache_getitem (clock s) (w_cache (closure s))
                    (cache_key (closure s) a)) as [[result|] c];
          simpl in Hpk, Hfr; simplify_eq; split; simpl; rewrite ?cache_key_set_shared.
        -- eapply settled_cached_update; eauto; simpl; try done.
           intros k v Hl. left. unfold cached. by rewrite <- Hfr.
        -- rewrite (started_keys_enter _ _ _ _ (Done a (inl result)) Hi) by done.
           simpl. rewrite Hm. f_equal.
           destruct (sc_cached _ _ _ SC (cache_key (closure s) a) result)
             as (j & u & Hj & Hu & Hk); [by unfold cached|].
           assert (cache_key (closure s) a ∈ started_keys (cache_key (closure s)) (threads s)).
           { apply elem_started_keys. exists j, u. eauto using settled_started. }
           symmetry. apply subseteq_union_1_L. by apply singleton_subseteq_l.
        -- eapply settled_cached_update; eauto; simpl; try done.
           intros k v Hl. left. unfold cached. by rewrite <- Hfr.
        -- rewrite (started_keys_enter _ _ _ _ (Computing a) Hi) by done.
           simpl. rewrite size_union, size_singleton, Hm; [done|].
           apply disjoint_singleton_l. rewrite elem_started_keys.
           intros (j & u & Hj & Hu & Hk).
           destruct (started_cases u Hu) as [Hf|[Hs _]].
           ++ apply Hout, (g_pending _ _ _ G). eauto.
           ++ destruct (sc_settled _ _ _ SC j u Hj Hs) as (v & _ & Hl).
              unfold cached in Hl. rewrite Hk in Hl. congruence.
    + done.
    + (* the call of func *)
      destruct (Hret a eq_refl Hi) as [v Hv]. rewrite Hv in Hex. simplify_eq.
      split; simpl; rewrite ?cache_key_set_shared.
      * eapply settled_cached_update; eauto; simpl; done.
      * by erewrite started_keys_same by (done || reflexivity).
    + (* the store *)
      specialize (Hsto a v eq_refl Hi).
      destruct (cache_setitem (clock s) (w_cache (closure s))
                  (cache_key (closure s) a) v) as [c|] eqn:Hset;
        simplify_eq; split; simpl; rewrite ?cache_key_set_shared.
      * eapply settled_cached_update; eauto; simpl; try done.
        intros k v' Hl.
        destruct (decide (k = cache_key (closure s) a)) as [->|Hne]; [by right|].
        left. unfold cached in *. simpl in Hl. eauto using peek_setitem.
      * by erewrite started_keys_same by (done || reflexivity).
      * eapply settled_cached_update; eauto; simpl; try done; auto.
      * by erewrite started_keys_same by (done || reflexivity).
    + (* the finally block *)
      destruct (decide (cache_key (closure s) a ∈ pending (closure s))) as [Hin|Hout].
      * simplify_eq. split; simpl; rewrite ?cache_key_set_shared.
        -- apply settled_cached_notify.
           destruct (sc_settled _ _ _ SC i _ Hi eq_refl) as (v & Hr & Hl).
           eapply settled_cached_update; eauto; simpl; try done; auto.
        -- rewrite started_keys_notify.
           by erewrite started_keys_same by (done || reflexivity).
      * exfalso. apply Hout, (g_pending _ _ _ G). exists i, (Finishing a r). auto.
    + done.
  - simplify_eq. split; simpl; [|done].
    eapply settled_cached_look; [exact SC|exact Hkept|].
    intros k v Hl. unfold cached in *. simpl in Hl. eauto using peek_later.
Qed.

Lemma quiet_invariants l s acts s' :
  quiet s acts s' -> guarded s -> tally l s -> coherent s ->
  guarded s' /\ tally l s' /\ coherent s'.
Proof.
  induction 1 as [|s act s1 acts s' He Hu _ IH]; intros G T C; [done|].
  apply IH.
  - eapply guarded_exec; eauto.
  - eapply tally_exec; eauto. apply Hu.
  - eapply coherent_exec; eauto.
Qed.

(** ** A key that is being computed is not in the cache *)

Lemma unstored_spawn w now l : unstored (spawn w now l).
Proof.
  intros i t Hi Ht. simpl in Hi. rewrite list_lookup_fmap in Hi.
  destruct (l !! i); simplify_eq/=.
Qed.

Lemma not_Some_None {A} (o : option A) : (forall x, o = Some x -> False) -> o = None.
Proof. destruct o; [intros H; destruct (H _ eq_refl)|done]. Qed.

Lemma unstored_exec s act s' :
  guarded s -> unstored s -> exec s act = Some s' -> unstored s'.
Proof.
  intros G U Hex. destruct act as [i| |d]; simpl in Hex.
  - destruct (threads s !! i) as [t|] eqn:Hi; simpl in Hex; [|done].
    destruct t as [a|a|a|a v|a r|a r]; simpl in Hex.
    + destruct (decide (cache_key (closure s) a ∈ pending (closure s))) as [Hin|Hout].
      * simplify_eq. intros j u Hj Hu. simpl in *.
        apply (lookup_update _ _ _ _ _ _ Hi) in Hj as [[<- ->]|[Hne Hj]]; [done|].
        by apply (U j).
      * pose proof (cache_getitem_peek (clock s) (w_cache (closure s))
                      (cache_key (closure s) a)) as Hpk.
        pose proof (peek_getitem (clock s) (w_cache (closure s))
                      (cache_key (closure s) a)) as Hfr.
        destruct (cache_getitem (clock s) (w_cache (closure s))
                    (cache_key (closure s) a)) as [[result|] c];
          simpl in Hpk, Hfr; simplify_eq; intros j u Hj Hu;
          unfold cached; simpl in *; rewrite cache_key_set_shared, Hfr.
        -- apply (lookup_update _ _ _ _ _ _ Hi) in Hj as [[<- ->]|[Hne Hj]]; [done|].
           by apply (U j).
        -- apply (lookup_update _ _ _ _ _ _ Hi) in Hj as [[<- ->]|[Hne Hj]]; [done|].
           by apply (U j).
    + done.
    + assert (Hk : cached s (cache_key (closure s) a) = None) by (by apply (U i _ Hi)).
      destruct (func (closure s) a); simplify_eq; intros j u Hj Hu;
        unfold cached; simpl in *.
      all: apply (lookup_update _ _ _ _ _ _ Hi) in Hj as [[<- ->]|[Hne Hj]];
        [done|by apply (U j)].
    + destruct (cache_setitem (clock s) (w_cache (closure s))
                  (cache_key (closure s) a) v) as [c|] eqn:Hset;
        simplify_eq; intros j u Hj Hu; unfold cached; simpl in *;
        rewrite ?cache_key_set_shared.
      * apply (lookup_update _ _ _ _ _ _ Hi) in Hj as [[<- ->]|[Hne Hj]]; [done|].
        apply not_Some_None. intros v' Hv'.
        assert (Hk : cache_key (closure s) (args_of u) <> cache_key (closure s) a).
        { intros Heq. apply Hne. symmetry.
          eapply (g_unique _ _ _ G j i u (Storing a v)); eauto. by destruct u. }
        pose proof (peek_setitem _ _ _ _ _ _ _ Hset Hk Hv') as Hold.
        pose proof (U j u Hj Hu) as Hnone. unfold cached in Hnone. congruence.
      * apply (lookup_update _ _ _ _ _ _ Hi) in Hj as [[<- ->]|[Hne Hj]]; [done|].
        by apply (U j).
    + destruct (decide (cache_key (closure s) a ∈ pending (closure s))) as [Hin|Hout];
        simplify_eq; intros j u Hj Hu; unfold cached; simpl in *;
        rewrite ?cache_key_set_shared.
      * rewrite notify_all_lookup in Hj.
        destruct (_ !! j) as [u0|] eqn:Hj0; simplify_eq/=.
        apply (lookup_update _ _ _ _ _ _ Hi) in Hj0 as [[<- ->]|[Hne Hj]]; [done|].
        rewrite args_of_wake. apply (U j u0 Hj). by destruct u0.
      * apply (lookup_update _ _ _ _ _ _ Hi) in Hj as [[<- ->]|[Hne Hj]]; [done|].
        by apply (U j).
    + done.
  - simplify_eq. intros j u Hj Hu. unfold cached. simpl. apply peek_clear.
  - simplify_eq. intros j u Hj Hu. unfold cached. simpl in *.
    apply not_Some_None. intros v Hv. apply peek_later in Hv.
    pose proof (U j u Hj Hu) as Hnone. unfold cached in Hnone. congruence.
Qed.

(** ** What no transition changes *)

Lemma exec_static s act s' :
  exec s act = Some s' ->
  func (closure s') = func (closure s) /\
  w_maxsize (closure s') = w_maxsize (closure s) /\
  w_typed (closure s') = w_typed (closure s).
Proof.
  intros Hex. destruct act as [i| |d]; simpl in Hex; [|by simplify_eq..].
  destruct (threads s !! i) as [t|]; simpl in Hex; [|done].
  destruct t; simpl in Hex; repeat case_match; by simplify_eq.
Qed.

Lemma run_static acts : forall s s',
  run s acts = Some s' ->
  func (closure s') = func (closure s) /\
  w_maxsize (closure s') = w_maxsize (closure s) /\
  w_typed (closure s') = w_typed (closure s).
Proof.
  induction acts as [|act acts IH]; intros s s' Hr; simpl in Hr; [by simplify_eq|].
  destruct (exec s act) as [s1|] eqn:He; simpl in Hr; [|done].
  destruct (exec_static _ _ _ He) as (<- & <- & <-). by apply IH.
Qed.

Lemma run_cache_key acts s s' :
  run s acts = Some s' -> cache_key (closure s') = cache_key (closure s).
Proof.
  intros Hr. destruct (run_static _ _ _ Hr) as (_ & _ & Ht).
  unfold cache_key. by rewrite Ht.
Qed.

Lemma unstored_run acts : forall s s',
  guarded s -> unstored s -> run s acts = Some s' -> unstored s'.
Proof.
  induction acts as [|act acts IH]; intros s s' G U Hr; simpl in Hr; [by simplify_eq|].
  destruct (exec s act) as [s1|] eqn:He; simpl in Hr; [|done].
  eapply IH; [| |done]; eauto using guarded_exec, unstored_exec.
Qed.

(** ** Freshly built wrappers *)

Lemma fresh_wrap p m ch t typed f : fresh (wrap (constructor p m ch t typed) f).
Proof. destruct p, m; split; done. Qed.

(** ** A plain dict disturbs nothing *)

Lemma dict_exec s act s' :
  is_dict (w_cache (closure s)) ->
  exec s act = Some s' -> is_dict (w_cache (closure s')).
Proof.
  intros Hd Hex. destruct act as [i| |d]; simpl in Hex; [| |by simplify_eq].
  2: { simplify_eq. simpl. by destruct (w_cache (closure s)). }
  destruct (threads s !! i) as [t|]; simpl in Hex; [|done].
  destruct (w_cache (closure s)) as [m| |] eqn:Hc; [|done..].
  destruct t; simpl in Hex; rewrite ?Hc in Hex; simpl in Hex;
    repeat case_match; simplify_eq; simpl; rewrite ?Hc; done.
Qed.

Lemma dict_undisturbed s act s' :
  guarded s -> unstored s -> is_dict (w_cache (closure s)) ->
  act <> CacheClear -> (forall a, exists v, func (closure s) a = inl v) ->
  exec s act = Some s' -> undisturbed s act s'.
Proof.
  intros G U Hd Hact Hf Hex. split; [done|by eauto|..].
  - intros i a v -> Hi. simpl in Hex. rewrite Hi in Hex. simpl in Hex.
    destruct (w_cache (closure s)) as [m| |] eqn:Hc; [|done..].
    simpl in Hex. simplify_eq. unfold cached. simpl. by rewrite lookup_insert_eq.
  - intros k v Hl. destruct (w_cache (closure s)) as [m| |] eqn:Hc; [|done..].
    unfold cached in Hl. rewrite Hc in Hl. simpl in Hl.
    destruct act as [i| |d]; simpl in Hex; [|done|].
    2: { simplify_eq. unfold cached. simpl. by rewrite Hc. }
    destruct (threads s !! i) as [t|] eqn:Hi; simpl in Hex; [|done].
    destruct t as [a|a|a|a v0|a r|a r]; simpl in Hex; rewrite ?Hc in Hex;
      simpl in Hex; repeat case_match; simplify_eq; unfold cached; simpl;
      rewrite ?Hc; simpl; try done.
    pose proof (U i _ Hi eq_refl) as Hnone. unfold cached in Hnone.
    rewrite Hc in Hnone. simpl in Hnone.
    rewrite lookup_insert_ne; [done|]. intros <-. congruence.
Qed.

Lemma dict_quiet acts : forall s s',
  guarded s -> unstored s -> is_dict (w_cache (closure s)) ->
  CacheClear ∉ acts -> (forall a, exists v, func (closure s) a = inl v) ->
  run s acts = Some s' -> quiet s acts s'.
Proof.
  induction acts as [|act acts IH]; intros s s' G U Hd Hc Hf Hr; simpl in Hr.
  - simplify_eq. constructor.
  - destruct (exec s act) as [s1|] eqn:He; simpl in Hr; [|done].
    assert (Hact : act <> CacheClear) by (intros ->; apply Hc; left).
    econstructor; [done|by apply dict_undisturbed|].
    apply IH; eauto using guarded_exec, unstored_exec, dict_exec.
    + intros Hin. apply Hc. by right.
    + destruct (exec_static _ _ _ He) as (-> & _). done.
Qed.

(** ** When every call has returned *)

Lemma completed_lookup s i t : completed s -> threads s !! i = Some t -> is_done t = true.
Proof. intros Hc Hi. eapply (proj1 (Forall_lookup _ _) Hc); eauto. Qed.

Lemma started_keys_completed kf ts :
  Forall (fun t => is_done t = true) ts ->
  started_keys kf ts = list_to_set (kf <$> (args_of <$> ts)).
Proof.
  intros Hd. apply set_eq. intros k.
  rewrite elem_started_keys, elem_of_list_to_set, list_elem_of_fmap. split.
  - intros (i & t & Hi & _ & Hk). exists (args_of t). split; [done|].
    apply list_elem_of_fmap. exists t. split; [done|].
    apply list_elem_of_lookup. eauto.
  - intros (a & -> & Ha). apply list_elem_of_fmap in Ha as (t & -> & Ht).
    apply list_elem_of_lookup in Ht as [i Hi]. exists i, t.
    split; [done|]. split; [|done].
    pose proof (proj1 (Forall_lookup _ _) Hd i t Hi) as Hdone. by destruct t.
Qed.

Lemma quiet_completed w now l acts s :
  fresh w -> quiet (spawn w now l) acts s -> completed s ->
  hits (closure s) + misses (closure s) = length l /\
  misses (closure s) = distinct_keys w l /\
  length (computed s) = misses (closure s) /\
  (forall i j a b r r',
     threads s !! i = Some (Done a r) -> threads s !! j = Some (Done b r') ->
     cache_key w a = cache_key w b -> exists v, r = inl v /\ r' = inl v).
Proof.
  intros [Hp Hh Hm He] Hq Hc.
  destruct (quiet_invariants l _ _ _ Hq) as (G & [Ta Tc Tr] & [SC Cm]).
  { by apply guarded_spawn. }
  { by apply tally_spawn. }
  { by apply coherent_spawn. }
  pose proof (run_cache_key _ _ _ (quiet_run _ _ _ Hq)) as Hk. simpl in Hk.
  rewrite Hk in *.
  assert (Hlen : length (threads s) = length l).
  { by rewrite <- Ta, length_fmap. }
  split; [|split; [|split]].
  - rewrite Tc, <- Hlen. apply count_all. intros i t Hi.
    pose proof (completed_lookup _ _ _ Hc Hi). by destruct t.
  - rewrite Cm. unfold distinct_keys. f_equal.
    rewrite <- Ta. by apply started_keys_completed.
  - rewrite <- Tr. rewrite (count_none computing); [lia|].
    intros i t Hi. pose proof (completed_lookup _ _ _ Hc Hi). by destruct t.
  - intros i j a b r r' Hi Hj Hab.
    destruct (sc_settled _ _ _ SC i _ Hi eq_refl) as (v & Hr & Hl).
    destruct (sc_settled _ _ _ SC j _ Hj eq_refl) as (v' & Hr' & Hl').
    simpl in *. simplify_eq. exists v. split; [done|].
    rewrite Hab in Hl. congruence.
Qed.


Lemma run_args acts : forall s s',
  run s acts = Some s' -> args_of <$> threads s' = args_of <$> threads s.
Proof.
  induction acts as [|act acts IH]; intros s s' Hr; simpl in Hr; [by simplify_eq|].
  destruct (exec s act) as [s1|] eqn:He; simpl in Hr; [|done].
  rewrite (IH _ _ Hr). clear IH Hr.
  destruct act as [i| |d]; simpl in He; [|by simplify_eq..].
  destruct (threads s !! i) as [t|] eqn:Hi; simpl in He; [|done].
  destruct t; simpl in He; repeat case_match; simplify_eq; simpl;
    rewrite ?args_notify; by erewrite args_update by (done || reflexivity).
Qed.

(** ** Reachable states *)

Lemma reachable_guarded s : reachable s -> guarded s.
Proof.
  intros (w & now & l & acts & Hp & Hr).
  eapply guarded_run; [|done]. by apply guarded_spawn.
Qed.

Lemma reachable_unstored s : reachable s -> unstored s.
Proof.
  intros (w & now & l & acts & Hp & Hr).
  eapply unstored_run; [| |done]; [by apply guarded_spawn|apply unstored_spawn].
Qed.

(** ** Stampede prevention *)

Lemma distinct_keys_pair w a b :
  cache_key w a = cache_key w b -> distinct_keys w [a; b] = 1.
Proof.
  intros Hk. unfold distinct_keys.
  assert (E : (list_to_set (cache_key w <$> [a; b]) : gset key) = {[cache_key w b]}).
  { apply set_eq. intros k. rewrite elem_of_list_to_set, elem_of_singleton.
    change (cache_key w <$> [a; b]) with [cache_key w a; cache_key w b].
    rewrite Hk, !elem_of_cons, elem_of_nil. tauto. }
  rewrite E. apply size_singleton.
Qed.

Lemma completed_pair s a b :
  completed s -> args_of <$> threads s = [a; b] ->
  exists r r', threads s = [Done a r; Done b r'].
Proof.
  intros Hc Ha. destruct (threads s) as [|t [|u [|]]] eqn:Hts; simplify_eq/=.
  unfold completed in Hc. rewrite Hts in Hc.
  apply Forall_cons in Hc as [Ht Hc]. apply Forall_cons in Hc as [Hu _].
  destruct t, u; simplify_eq/=. eauto.
Qed.

(** C1, as stated, fails: when the computation raises, nothing is cached
    and the second of two calls with an identical key, woken by the
    first, computes again.  Here [lru_cache(maxsize=128)] wraps a
    function that raises, two threads call it with [1], and the body
    runs twice. *)
Lemma raising_call_computed_twice :
  (fun s => (threads s, length (computed s)))
    <$> run (spawn (wrap (lru_cache (ArgInt 128) false) failing) 0
               [call_int 1; call_int 1])
          [Run 0; Run 1; Run 0; Run 0; Run 1; Run 1; Run 1]
  = Some ([Done (call_int 1) (inr (Raised "RuntimeError"));
           Done (call_int 1) (inr (Raised "RuntimeError"))], 2).
Proof. vm_compute. reflexivity. Qed.

(** C1, amended: in every state that the callers of a wrapper can reach,
    (1) no two threads are in flight on one key; (2) a caller whose key
    is pending goes to sleep without looking the key up, and (3) a
    sleeping caller cannot move while its key is pending; (4) a caller
    whose key is not pending looks it up at once, whatever other keys
    are in flight, and (5) the call of the function changes nothing
    shared, so it needs no lock; (6) two calls with an identical key on
    a fresh wrapper run the function once and return the same value,
    when the run is undisturbed: the function returns, its value is
    stored and stays in the cache. *)
Theorem stampede_guard (w : wrapper) (now : Z) (l : list call_args)
    (acts : list action) (s : system) :
  pending w = ∅ ->
  run (spawn w now l) acts = Some s ->
  (forall i j t u,
     threads s !! i = Some t -> threads s !! j = Some u ->
     in_flight t = true -> in_flight u = true ->
     cache_key w (args_of t) = cache_key w (args_of u) -> i = j) /\
  (forall i a,
     threads s !! i = Some (Waiting a) -> cache_key w a ∈ pending (closure s) ->
     exec s (Run i)
     = Some (System (closure s) (clock s) (<[i := Asleep a]> (threads s)) (computed s))) /\
  (forall i a,
     threads s !! i = Some (Asleep a) ->
     exec s (Run i) = None /\ cache_key w a ∈ pending (closure s)) /\
  (forall i a,
     threads s !! i = Some (Waiting a) -> cache_key w a ∉ pending (closure s) ->
     exists s', exec s (Run i) = Some s' /\
       (threads s' !! i = Some (Computing a) \/
        exists v, threads s' !! i = Some (Done a (inl v)))) /\
  (forall i a,
     threads s !! i = Some (Computing a) ->
     exists s', exec s (Run i) = Some s' /\
       closure s' = closure s /\ clock s' = clock s /\
       computed s' = computed s ++ [a]) /\
  (forall a b,
     l = [a; b] -> fresh w -> cache_key w a = cache_key w b ->
     quiet (spawn w now l) acts s -> completed s ->
     length (computed s) = 1 /\
     exists v, threads s = [Done a (inl v); Done b (inl v)]).
Proof.
  intros Hp Hr.
  assert (G : guarded s) by (apply reachable_guarded; by exists w, now, l, acts).
  pose proof (run_cache_key _ _ _ Hr) as Hk. simpl in Hk.
  unfold guarded in G. rewrite Hk in G.
  split; [|split; [|split; [|split; [|split]]]].
  - intros i j t u. apply (g_unique _ _ _ G).
  - intros i a Hi Hin. simpl. rewrite Hi. simpl. rewrite Hk.
    by destruct (decide (cache_key w a ∈ pending (closure s))).
  - intros i a Hi. split; [simpl; by rewrite Hi|]. by apply (g_asleep _ _ _ G i).
  - intros i a Hi Hout. simpl. rewrite Hi. simpl. rewrite Hk.
    destruct (decide (cache_key w a ∈ pending (closure s))); [done|].
    destruct (cache_getitem _ _ _) as [[v|] c]; eexists; (split; [done|]); simpl.
    + right. exists v. apply list_lookup_insert_eq. eapply lookup_lt_Some; eauto.
    + left. apply list_lookup_insert_eq. eapply lookup_lt_Some; eauto.
  - intros i a Hi. simpl. rewrite Hi. simpl.
    destruct (func (closure s) a); eexists; (split; [done|]); done.
  - intros a b -> Hf Hab Hq Hc.
    destruct (quiet_completed _ _ _ _ _ Hf Hq Hc) as (_ & Hm & Hcomp & Hres).
    rewrite (distinct_keys_pair _ _ _ Hab) in Hm. split; [congruence|].
    pose proof (run_args _ _ _ Hr) as Ha. simpl in Ha.
    destruct (completed_pair _ _ _ Hc Ha) as (r & r' & Hts).
    destruct (Hres 0 1 a b r r') as (v & -> & ->); [by rewrite Hts..|done|].
    by exists v.
Qed.

Lemma stampede_guard_witness :
  run two_callers two_callers_schedule = Some two_callers_done /\
  length (computed two_callers_done) = 1 /\
  exists v, threads two_callers_done
            = [Done (call_int 1) (inl v); Done (call_float 1) (inl v)].
Proof.
  assert (Hr : run two_callers two_callers_schedule = Some two_callers_done)
    by (vm_compute; reflexivity).
  split; [exact Hr|].
  refine (proj2 (proj2 (proj2 (proj2 (proj2
    (stampede_guard (wrap (lru_cache ArgNone false) identity) 0
       [call_int 1; call_float 1] two_callers_schedule two_callers_done
       eq_refl Hr))))) (call_int 1) (call_float 1) eq_refl _ _ _ _).
  - exact (fresh_wrap LRU ArgNone no_choice 0%Z false identity).
  - vm_compute. reflexivity.
  - apply dict_quiet.
    + by apply guarded_spawn.
    + apply unstored_spawn.
    + exact I.
    + intros Hin. repeat (apply elem_of_cons in Hin as [Hin|Hin]; [discriminate|]).
      by apply elem_of_nil in Hin.
    + intros a. by eexists.
    + exact Hr.
  - repeat constructor.
Defined.

(** ** Hits and misses *)

(** C2: the lookup of a call whose key is not pending counts the call
    once: a hit returns the cached value and leaves [misses] alone, a
    miss leaves [hits] alone; no other transition of a thread touches
    the counters.  Hence when the [N] calls [l] on a fresh wrapper have
    all returned after an undisturbed run (every call cacheable, no
    eviction, expiry or [cache_clear()]), [hits + misses = N] and
    [misses] is the number [M <= N] of distinct keys. *)
Theorem hit_miss_accounting (w : wrapper) (now : Z) (l : list call_args)
    (acts : list action) (s : system) :
  fresh w -> quiet (spawn w now l) acts s -> completed s ->
  (forall s0 i a,
     threads s0 !! i = Some (Waiting a) ->
     cache_key (closure s0) a ∉ pending (closure s0) ->
     exists s1, exec s0 (Run i) = Some s1 /\
       match cached s0 (cache_key (closure s0) a) with
       | Some v =>
           hits (closure s1) = S (hits (closure s0)) /\
           misses (closure s1) = misses (closure s0) /\
           threads s1 !! i = Some (Done a (inl v))
       | None =>
           hits (closure s1) = hits (closure s0) /\
           misses (closure s1) = S (misses (closure s0)) /\
           threads s1 !! i = Some (Computing a)
       end) /\
  (forall s0 i t s1,
     threads s0 !! i = Some t ->
     (forall a, t = Waiting a -> cache_key (closure s0) a ∈ pending (closure s0)) ->
     exec s0 (Run i) = Some s1 ->
     hits (closure s1) = hits (closure s0) /\
     misses (closure s1) = misses (closure s0)) /\
  hits (closure s) + misses (closure s) = length l /\
  misses (closure s) = distinct_keys w l /\
  distinct_keys w l <= length l.
Proof.
  intros Hf Hq Hc.
  destruct (quiet_completed _ _ _ _ _ Hf Hq Hc) as (Hn & Hm & _ & _).
  split; [|split; [|split; [|split]]]; [| |done|done|lia].
  - intros s0 i a Hi Hout. simpl. rewrite Hi. simpl.
    destruct (decide (cache_key (closure s0) a ∈ pending (closure s0))); [done|].
    unfold cached. rewrite <- cache_getitem_peek.
    destruct (cache_getitem _ _ _) as [[v|] c]; eexists; (split; [done|]); simpl.
    all: split; [done|]; split; [done|].
    all: apply list_lookup_insert_eq; eapply lookup_lt_Some; eauto.
  - intros s0 i t s1 Hi Hw Hex. simpl in Hex. rewrite Hi in Hex. simpl in Hex.
    destruct t as [a|a|a|a v|a r|a r]; simpl in Hex.
    + specialize (Hw a eq_refl).
      destruct (decide (cache_key (closure s0) a ∈ pending (closure s0))); [|done].
      by simplify_eq.
    + done.
    + destruct (func (closure s0) a); by simplify_eq.
    + destruct (cache_setitem _ _ _ _); by simplify_eq.
    + destruct (decide (cache_key (closure s0) a ∈ pending (closure s0)));
        by simplify_eq.
    + done.
Qed.

Lemma hit_miss_accounting_witness :
  hits (closure three_callers_done) + misses (closure three_callers_done) = 3 /\
  misses (closure three_callers_done) = 2.
Proof.
  assert (Hr : run three_callers three_callers_schedule = Some three_callers_done)
    by (vm_compute; reflexivity).
  assert (Hq : quiet three_callers three_callers_schedule three_callers_done).
  { apply dict_quiet.
    - by apply guarded_spawn.
    - apply unstored_spawn.
    - exact I.
    - intros Hin. repeat (apply elem_of_cons in Hin as [Hin|Hin]; [discriminate|]).
      by apply elem_of_nil in Hin.
    - intros a. by eexists.
    - exact Hr. }
  assert (Hc : completed three_callers_done) by repeat constructor.
  destruct (hit_miss_accounting (wrap (fifo_cache ArgNone false) identity) 0
              [call_int 1; call_int 2; call_float 1]
              three_callers_schedule three_callers_done
              (fresh_wrap FIFO ArgNone no_choice 0%Z false identity) Hq Hc)
    as (_ & _ & Hn & Hm & _).
  split; [exact Hn|]. rewrite Hm. vm_compute. reflexivity.
Defined.

(** ** Failures *)

Lemma finishing_step s i a r :
  guarded s -> threads s !! i = Some (Finishing a r) ->
  cache_key (closure s) a ∈ pending (closure s) /\
  exec s (Run i)
  = Some (System (set_shared (closure s) (w_cache (closure s))
                    (pending (closure s) ∖ {[cache_key (closure s) a]})
                    (hits (closure s)) (misses (closure s)))
            (clock s) (notify_all (<[i := Done a r]> (threads s))) (computed s)).
Proof.
  intros G Hi.
  assert (Hin : cache_key (closure s) a ∈ pending (closure s)).
  { apply (g_pending _ _ _ G). exists i, (Finishing a r). auto. }
  split; [done|]. simpl. rewrite Hi. simpl.
  by destruct (decide (cache_key (closure s) a ∈ pending (closure s))).
Qed.

Lemma notified_lookup (ts : list tstate) i t0 t j :
  ts !! i = Some t0 -> in_flight t0 = true -> is_done t = true ->
  notify_all (<[i := t]> ts) !! i = Some t /\
  (forall b, ts !! j = Some (Asleep b) -> notify_all (<[i := t]> ts) !! j = Some (Waiting b)) /\
  (forall b, notify_all (<[i := t]> ts) !! j <> Some (Asleep b)).
Proof.
  intros Hi Hf Hd. assert (Hlt : i < length ts) by (eapply lookup_lt_Some; eauto).
  split; [|split].
  - rewrite notify_all_lookup, list_lookup_insert_eq by done. by destruct t.
  - intros b Hj. rewrite notify_all_lookup.
    destruct (decide (i = j)) as [->|Hne].
    + rewrite Hi in Hj. by simplify_eq.
    + rewrite list_lookup_insert_ne by done. by rewrite Hj.
  - intros b Hj. rewrite notify_all_lookup in Hj.
    destruct (_ !! j) as [u|]; simplify_eq/=. by destruct u.
Qed.

(** C3: when the store of a computed value fails with ValueTooLarge,
    the failure does not leave the [with] block: the thread goes on to
    its [finally:] with nothing shared changed, returns the value it
    computed, and leaves the cache as it was, without the key, so that
    a later caller with that key misses and computes again. *)
Theorem value_too_large_swallowed (s : system) (i : nat) (a : call_args) (v : pyval) :
  reachable s ->
  threads s !! i = Some (Storing a v) ->
  cache_setitem (clock s) (w_cache (closure s)) (cache_key (closure s) a) v = None ->
  exists s1 s2,
    exec s (Run i) = Some s1 /\ exec s1 (Run i) = Some s2 /\
    closure s1 = closure s /\
    threads s1 !! i = Some (Finishing a (inl v)) /\
    w_cache (closure s2) = w_cache (closure s) /\
    threads s2 !! i = Some (Done a (inl v)) /\
    cached s2 (cache_key (closure s) a) = None /\
    (forall j b,
       threads s2 !! j = Some (Waiting b) ->
       cache_key (closure s) b = cache_key (closure s) a ->
       exists s3, exec s2 (Run j) = Some s3 /\ threads s3 !! j = Some (Computing b)).
Proof.
  intros Hre Hi Hset.
  pose proof (reachable_guarded _ Hre) as G.
  pose proof (reachable_unstored _ Hre i _ Hi eq_refl) as Hno. simpl in Hno.
  assert (Hlt : i < length (threads s)) by (eapply lookup_lt_Some; eauto).
  set (s1 := System (closure s) (clock s)
               (<[i := Finishing a (inl v)]> (threads s)) (computed s)).
  assert (He1 : exec s (Run i) = Some s1).
  { simpl. rewrite Hi. simpl. by rewrite Hset. }
  assert (Hi1 : threads s1 !! i = Some (Finishing a (inl v))).
  { simpl. by apply list_lookup_insert_eq. }
  pose proof (guarded_exec _ _ _ G He1) as G1.
  destruct (finishing_step _ _ _ _ G1 Hi1) as [Hin He2]. simpl in Hin.
  eexists s1, _. split; [done|]. split; [exact He2|]. simpl.
  destruct (notified_lookup _ i _ (Done a (inl v)) i Hi1 eq_refl eq_refl)
    as (Hd & _ & _).
  simpl in Hd.
  split; [done|]. split; [done|]. split; [done|]. split; [done|].
  split; [done|].
  intros j b Hj Hb. simpl. rewrite Hj. simpl.
  rewrite cache_key_set_shared, Hb.
  destruct (decide (_ ∈ _ ∖ _)) as [Hbad|_].
  { apply elem_of_difference in Hbad as [_ Hbad]. destruct Hbad.
    by apply elem_of_singleton. }
  pose proof (cache_getitem_peek (clock s) (w_cache (closure s))
                (cache_key (closure s) a)) as Hpk.
  unfold cached in Hno. rewrite Hno in Hpk.
  destruct (cache_getitem _ _ _) as [[v'|] c]; simpl in Hpk; [done|].
  eexists. split; [done|]. simpl.
  apply list_lookup_insert_eq. eapply lookup_lt_Some; eauto.
Qed.

Lemma value_too_large_swallowed_witness :
  exists s1 s2,
    exec oversized_store (Run 0) = Some s1 /\ exec s1 (Run 0) = Some s2 /\
    closure s1 = closure oversized_store /\
    threads s1 !! 0 = Some (Finishing (call_int 1) (inl (PInt 1))) /\
    w_cache (closure s2) = w_cache (closure oversized_store) /\
    threads s2 !! 0 = Some (Done (call_int 1) (inl (PInt 1))) /\
    cached s2 (cache_key (closure oversized_store) (call_int 1)) = None /\
    (forall j b,
       threads s2 !! j = Some (Waiting b) ->
       cache_key (closure oversized_store) b
       = cache_key (closure oversized_store) (call_int 1) ->
       exists s3, exec s2 (Run j) = Some s3 /\ threads s3 !! j = Some (Computing b)).
Proof.
  apply (value_too_large_swallowed oversized_store 0 (call_int 1) (PInt 1)).
  - exists (wrap (lru_cache (ArgInt 0) false) identity), 0%Z, [call_int 1],
      [Run 0; Run 0].
    split; [reflexivity|]. vm_compute. reflexivity.
  - reflexivity.
  - reflexivity.
Defined.

(** C4: in every reachable state, (1) when the function raises, the
    thread takes the error to its [finally:] with nothing shared
    changed, so nothing is cached; (2) a thread that has a value goes to
    its [finally:] whether the store succeeds or not, with the key still
    pending; (3) in [finally:], whatever the outcome, the key is pending,
    and the thread removes it, leaves the cache alone, wakes every
    sleeping thread and returns its value or raises its error as it is;
    it can do so only once, for it has then returned. *)
Theorem finally_releases_key (s : system) (i : nat) (a : call_args) :
  reachable s ->
  (forall e,
     threads s !! i = Some (Computing a) -> func (closure s) a = inr e ->
     exists s1, exec s (Run i) = Some s1 /\ closure s1 = closure s /\
       threads s1 !! i = Some (Finishing a (inr (Raised e)))) /\
  (forall v,
     threads s !! i = Some (Storing a v) ->
     exists s1, exec s (Run i) = Some s1 /\
       pending (closure s1) = pending (closure s) /\
       threads s1 !! i = Some (Finishing a (inl v))) /\
  (forall r,
     threads s !! i = Some (Finishing a r) ->
     cache_key (closure s) a ∈ pending (closure s) /\
     exists s2, exec s (Run i) = Some s2 /\
       threads s2 !! i = Some (Done a r) /\
       w_cache (closure s2) = w_cache (closure s) /\
       pending (closure s2) = pending (closure s) ∖ {[cache_key (closure s) a]} /\
       (cache_key (closure s) a ∉ pending (closure s2)) /\
       (forall j b, threads s !! j = Some (Asleep b) ->
                    threads s2 !! j = Some (Waiting b)) /\
       (forall j b, threads s2 !! j <> Some (Asleep b)) /\
       exec s2 (Run i) = None).
Proof.
  intros Hre. pose proof (reachable_guarded _ Hre) as G.
  split; [|split].
  - intros e Hi He. simpl. rewrite Hi. simpl. rewrite He.
    eexists. split; [done|]. split; [done|]. simpl.
    apply list_lookup_insert_eq. eapply lookup_lt_Some; eauto.
  - intros v Hi. simpl. rewrite Hi. simpl.
    destruct (cache_setitem _ _ _ _); eexists; (split; [done|]);
      (split; [done|]); simpl;
      apply list_lookup_insert_eq; eapply lookup_lt_Some; eauto.
  - intros r Hi. destruct (finishing_step _ _ _ _ G Hi) as [Hin He].
    split; [done|]. eexists. split; [exact He|]. simpl.
    assert (Hd : forall j, notify_all (<[i := Done a r]> (threads s)) !! i = Some (Done a r) /\
      (forall b, threads s !! j = Some (Asleep b) ->
                 notify_all (<[i := Done a r]> (threads s)) !! j = Some (Waiting b)) /\
      (forall b, notify_all (<[i := Done a r]> (threads s)) !! j <> Some (Asleep b))).
    { intros j. by apply (notified_lookup _ i (Finishing a r)). }
    split; [apply (Hd 0)|]. split; [done|]. split; [done|].
    split. { intros Hbad. apply elem_of_difference in Hbad as [_ Hbad].
             destruct Hbad. by apply elem_of_singleton. }
    split; [intros j; apply (Hd j)|]. split; [intros j; apply (Hd j)|].
    destruct (Hd 0) as [-> _]. done.
Qed.

Lemma finally_releases_key_witness :
  threads raised_with_waiter
  = [Finishing (call_int 1) (inr (Raised "RuntimeError")); Asleep (call_int 1)] /\
  exists s2, exec raised_with_waiter (Run 0) = Some s2 /\
    threads s2 !! 0 = Some (Done (call_int 1) (inr (Raised "RuntimeError"))) /\
    threads s2 !! 1 = Some (Waiting (call_int 1)) /\
    w_cache (closure s2) = w_cache (closure raised_with_waiter) /\
    (cache_key (closure raised_with_waiter) (call_int 1) ∉ pending (closure s2)).
Proof.
  split; [reflexivity|].
  assert (Hre : reachable raised_with_waiter).
  { exists (wrap (fifo_cache (ArgInt 2) false) failing), 0%Z,
      [call_int 1; call_int 1], [Run 0; Run 1; Run 0].
    split; [reflexivity|]. vm_compute. reflexivity. }
  destruct (finally_releases_key raised_with_waiter 0 (call_int 1) Hre)
    as (_ & _ & Hfin).
  destruct (Hfin (inr (Raised "RuntimeError")) eq_refl)
    as (_ & s2 & He & Hd & Hc & _ & Hp & Hw & _).
  exists s2. split; [exact He|]. split; [exact Hd|].
  split; [exact (Hw 1 (call_int 1) eq_refl)|]. split; [exact Hc|exact Hp].
Defined.

(** ** An unbounded TTL cache stays one *)

Lemma unbounded_put now b k v :
  policy b = TTL -> capacity b = Infinite ->
  exists b', bc_put now b k v = Some b' /\
    policy b' = TTL /\ capacity b' = Infinite /\
    (exists e, entries b' !! k = Some e /\ e_value e = v) /\
    (forall k' e, k' <> k -> entries b !! k' = Some e -> entries b' !! k' = Some e).
Proof.
  intros Hp Hc. unfold bc_put, too_large, is_full. rewrite Hc.
  destruct (entries b !! k) as [e0|] eqn:Hk; eexists; (split; [reflexivity|]).
  - unfold touch. simpl. rewrite Hp. simpl. repeat (split; [done|]). split.
    + exists (set_value v e0). by rewrite lookup_alter, decide_True, Hk.
    + intros k' e Hne He. by rewrite lookup_alter, decide_False.
  - simpl. repeat (split; [done|]). split.
    + eexists. by rewrite lookup_insert_eq.
    + intros k' e Hne He. by rewrite lookup_insert_ne.
Qed.

Lemma unbounded_get now b k :
  policy b = TTL -> capacity b = Infinite ->
  policy (bc_get now b k).2 = TTL /\ capacity (bc_get now b k).2 = Infinite /\
  (forall k' e, entries b !! k' = Some e -> entries (bc_get now b k).2 !! k' = None ->
     k' = k /\ expired now e = true).
Proof.
  intros Hp Hc. unfold bc_get.
  destruct (entries b !! k) as [e0|] eqn:Hk.
  2: { simpl. split; [done|]. split; [done|]. intros k' e He Hn. congruence. }
  rewrite Hp. destruct (expired now e0) eqn:Hx; simpl.
  - split; [done|]. split; [done|]. intros k' e He Hnone.
    destruct (decide (k = k')) as [<-|Hne]; [by simplify_eq|].
    rewrite lookup_delete_ne in Hnone by done. congruence.
  - unfold touch. rewrite Hp. split; [done|]. split; [done|]. congruence.
Qed.

Lemma unbounded_exec s act s' :
  unbounded_ttl (w_cache (closure s)) -> exec s act = Some s' ->
  unbounded_ttl (w_cache (closure s')).
Proof.
  intros Hu Hex. destruct (w_cache (closure s)) as [|b0|b] eqn:Hw; [done..|].
  destruct Hu as [Hp Hc].
  destruct act as [i| |d]; simpl in Hex.
  2: { simplify_eq. simpl. by rewrite Hw. }
  2: { simplify_eq. simpl. by rewrite Hw. }
  destruct (threads s !! i) as [t|]; simpl in Hex; [|done].
  destruct t as [a|a|a|a v|a r|a r]; simpl in Hex; rewrite ?Hw in Hex; simpl in Hex.
  - destruct (decide _); [simplify_eq; simpl; by rewrite Hw|].
    pose proof (unbounded_get (clock s) b (cache_key (closure s) a) Hp Hc)
      as (Hp' & Hc' & _).
    destruct (bc_get _ _ _) as [[v|] b']; by simplify_eq.
  - done.
  - destruct (func _ _); simplify_eq; simpl; by rewrite Hw.
  - destruct (unbounded_put (clock s) b (cache_key (closure s) a) v Hp Hc)
      as (b' & Hput & Hp' & Hc' & _). rewrite Hput in Hex. simpl in Hex.
    by simplify_eq.
  - destruct (decide _); simplify_eq; simpl; by rewrite ?Hw.
  - done.
Qed.

Lemma unbounded_run acts : forall s s',
  unbounded_ttl (w_cache (closure s)) -> run s acts = Some s' ->
  unbounded_ttl (w_cache (closure s')).
Proof.
  induction acts as [|act acts IH]; intros s s' Hd Hr; simpl in Hr; [by simplify_eq|].
  destruct (exec s act) as [s1|] eqn:He; simpl in Hr; [|done].
  eauto using unbounded_exec.
Qed.

(** ** cache_clear, cache_info, cache_parameters *)

(** C5, as stated, fails: [cache_clear()] does not touch the pending
    set.  Here a caller of [lru_cache(maxsize=128)(identity)] has missed
    on [1] and is computing when another thread clears the cache: the
    key of [1] is still pending afterwards. *)
Lemma cache_clear_keeps_pending :
  (fun s => (elements (pending (closure s)), threads s))
    <$> run (spawn (wrap (lru_cache (ArgInt 128) false) identity) 0 [call_int 1])
          [Run 0; CacheClear]
  = Some ([hashkey (call_int 1)], [Computing (call_int 1)]).
Proof. vm_compute. reflexivity. Qed.

Lemma currsize_clear c : cache_currsize (cache_clear_all c) = 0.
Proof. destruct c; simpl; apply map_size_empty. Qed.

Lemma cache_info_fields w :
  cache_info w
  = _CacheInfo (hits w) (misses w) (cache_maxsize (w_cache w)) (cache_currsize (w_cache w)).
Proof. unfold cache_info. by destruct (w_cache w). Qed.

(** C5, amended: [cache_clear()] empties the cache and zeroes both
    counters; the function, the parameters, the pending set and the
    threads stay as they are.  Right afterwards [cache_info()] reports
    zero hits, zero misses and zero current size, and a call with any
    key that is not pending, cached before or not, is a miss. *)
Theorem cache_clear_resets (s : system) :
  exists s',
    exec s CacheClear = Some s' /\
    func (closure s') = func (closure s) /\
    cache_parameters (closure s') = cache_parameters (closure s) /\
    pending (closure s') = pending (closure s) /\
    threads s' = threads s /\
    ci_hits (cache_info (closure s')) = 0 /\
    ci_misses (cache_info (closure s')) = 0 /\
    ci_currsize (cache_info (closure s')) = 0 /\
    ci_maxsize (cache_info (closure s')) = ci_maxsize (cache_info (closure s)) /\
    (forall k, cached s' k = None) /\
    (forall i a,
       threads s' !! i = Some (Waiting a) ->
       cache_key (closure s') a ∉ pending (closure s') ->
       exists s'', exec s' (Run i) = Some s'' /\
         threads s'' !! i = Some (Computing a) /\
         hits (closure s'') = 0 /\ misses (closure s'') = 1).
Proof.
  eexists. split; [reflexivity|]. simpl.
  split; [done|]. split; [done|]. split; [done|]. split; [done|].
  rewrite !cache_info_fields. simpl.
  split; [done|]. split; [done|]. split; [apply currsize_clear|].
  split; [by destruct (w_cache (closure s))|].
  split; [intros k; apply peek_clear|].
  intros i a Hi Hout. rewrite Hi. simpl.
  destruct (decide (_ ∈ _)) as [Hin|_]; [done|].
  pose proof (cache_getitem_peek (clock s) (cache_clear_all (w_cache (closure s)))
                (cache_key (cache_clear (closure s)) a)) as Hpk.
  rewrite peek_clear in Hpk.
  destruct (cache_getitem _ _ _) as [[v|] c]; simpl in Hpk; [done|].
  eexists. split; [done|]. simpl. split; [|done].
  apply list_lookup_insert_eq. eapply lookup_lt_Some; eauto.
Qed.

Lemma cache_clear_resets_witness :
  cached warm_cache (hashkey (call_int 1)) = Some (PInt 1) /\
  ci_currsize (cache_info (closure warm_cache)) = 1 /\
  exists s' s'',
    exec warm_cache CacheClear = Some s' /\
    ci_hits (cache_info (closure s')) = 0 /\
    ci_misses (cache_info (closure s')) = 0 /\
    ci_currsize (cache_info (closure s')) = 0 /\
    exec s' (Run 1) = Some s'' /\
    threads s'' !! 1 = Some (Computing (call_int 1)) /\
    misses (closure s'') = 1.
Proof.
  split; [vm_compute; reflexivity|]. split; [vm_compute; reflexivity|].
  destruct (cache_clear_resets warm_cache)
    as (s' & He & _ & _ & Hp & Hts & Hh & Hm & Hc & _ & _ & Hcall).
  destruct (Hcall 1 (call_int 1)) as (s'' & He' & Ht & _ & Hm').
  - rewrite Hts. reflexivity.
  - rewrite Hp. change (pending (closure warm_cache)) with (∅ : gset key).
    apply not_elem_of_empty.
  - exists s', s''. repeat (split; [assumption|]). assumption.
Defined.

(** ** What the attributes of a wrapper hold *)

Lemma exec_attributes s act s' :
  exec s act = Some s' ->
  w_dict (closure s') = w_dict (closure s) /\ w_meta (closure s') = w_meta (closure s).
Proof.
  intros Hex. destruct act as [i| |d]; simpl in Hex; [|by simplify_eq..].
  destruct (threads s !! i) as [t|]; simpl in Hex; [|done].
  destruct t; simpl in Hex; repeat case_match; by simplify_eq.
Qed.

(** No transition assigns to an attribute of the wrapper. *)
Lemma run_attributes acts : forall s s',
  run s acts = Some s' ->
  w_dict (closure s') = w_dict (closure s) /\ w_meta (closure s') = w_meta (closure s).
Proof.
  induction acts as [|act acts IH]; intros s s' Hr; simpl in Hr; [by simplify_eq|].
  destruct (exec s act) as [s1|] eqn:He; simpl in Hr; [|done].
  destruct (exec_attributes _ _ _ He) as [<- <-]. by apply IH.
Qed.

(** Every constructor ends in [decorator(func)], where [func] is the
    function it was given or the function the decorator is applied to. *)
Lemma wrap_decorate p m ch t typed f :
  exists d,
    wrap (constructor p m ch t typed) f
    = decorate d (func (wrap (constructor p m ch t typed) f)) /\
    d_maxsize d = given_maxsize m /\ d_typed d = typed.
Proof. destruct p, m; eexists; (split; [reflexivity|]); done. Qed.

(** [update_wrapper] leaves a member of the wrapper in place when the
    function carries nothing under that name. *)
Lemma decorate_own d f name m :
  wrapper_members !! name = Some (Member 0 m) ->
  fo_dict f !! name = None ->
  w_dict (decorate d f) !! name = Some (Member 0 m).
Proof.
  intros Hown Hf. simpl.
  assert (Hne : "__wrapped__"%string <> name).
  { intros <-. vm_compute in Hown. discriminate. }
  rewrite lookup_insert_ne by done.
  rewrite lookup_union_r; [done|]. by rewrite lookup_fmap, Hf.
Qed.

(** And replaces it by what the function carries otherwise. *)
Lemma decorate_inherited d f name x :
  fo_dict f !! name = Some x -> name <> "__wrapped__"%string ->
  w_dict (decorate d f) !! name = Some (inherited x).
Proof.
  intros Hf Hne. simpl. rewrite lookup_insert_ne by done.
  apply lookup_union_Some_l. by rewrite lookup_fmap, Hf.
Qed.

Lemma bound_to_own below w name m :
  w_dict w !! name = Some (Member 0 m) -> bound_to below w name m = Some w.
Proof. intros H. unfold bound_to. rewrite H. by rewrite decide_True. Qed.

Lemma bound_to_run below acts s s' name m :
  run s acts = Some s' ->
  w_dict (closure s) !! name = Some (Member 0 m) ->
  bound_to below (closure s') name m = Some (closure s').
Proof.
  intros Hr H. apply bound_to_own.
  destruct (run_attributes _ _ _ Hr) as [-> _]. done.
Qed.




(** C9, as stated, fails: when the wrapped function carries an
    attribute [cache_parameters], [update_wrapper] puts it in the place
    of the wrapper's own.  [lru_cache(maxsize=None, typed=False)]
    applied to a function that [fifo_cache(maxsize=5, typed=True)] has
    memoized reports [maxsize] 5 and [typed] true. *)
Lemma stacked_cache_parameters :
  cache_parameters stacked = (None, false) /\
  call_cache_parameters stacked_below stacked = Some (Some 5%Z, true).
Proof. split; vm_compute; reflexivity. Qed.

(** C9, amended: when the wrapped function carries no attribute
    [cache_parameters] of its own, [cache_parameters()] of the wrapper
    a constructor builds returns the [maxsize] and [typed] that the
    constructor gave [_cache] ([None], [128] for the bare decorator, or
    the number passed), in every state the wrapper reaches: no call, no
    [cache_clear()] and no passing of time assigns to an attribute of
    the wrapper or changes what the [lambda] closes over. *)
Theorem cache_parameters_constant (p : Policy) (m : maxsize_arg)
    (ch : list key -> key) (t : Z) (typed : bool) (f : funobj) (now : Z)
    (l : list call_args) (acts : list action) (s : system)
    (below : gmap nat wrapper) :
  fo_dict (func (wrap (constructor p m ch t typed) f)) !! "cache_parameters"%string
  = None ->
  run (spawn (wrap (constructor p m ch t typed) f) now l) acts = Some s ->
  call_cache_parameters below (closure s) = Some (given_maxsize m, typed) /\
  w_dict (closure s) = w_dict (wrap (constructor p m ch t typed) f) /\
  cache_parameters (closure s) = (given_maxsize m, typed).
Proof.
  intros Hf Hr.
  destruct (wrap_decorate p m ch t typed f) as (d & Hw & Hm & Ht).
  destruct (run_static _ _ _ Hr) as (_ & Hms & Hts). simpl in Hms, Hts.
  assert (Hc : cache_parameters (closure s) = (given_maxsize m, typed)).
  { unfold cache_parameters. rewrite Hms, Hts, Hw. simpl. by rewrite Hm, Ht. }
  split; [|split; [by destruct (run_attributes _ _ _ Hr)|done]].
  unfold call_cache_parameters.
  rewrite (bound_to_run below _ _ _ _ MCacheParameters Hr).
  - simpl. by rewrite Hc.
  - simpl. rewrite Hw. by apply decorate_own.
Qed.

Lemma cache_parameters_constant_witness :
  call_cache_parameters ∅ (closure warm_cache) = Some (Some 128%Z, false) /\
  (fun s => call_cache_parameters ∅ (closure s))
    <$> run (spawn (wrap (lru_cache (ArgInt 128) false) identity) 0
               [call_int 1; call_int 1])
          [Run 0; Run 0; CacheClear; Run 0; Tick 5; Run 0; Run 1; CacheClear]
  = Some (Some (Some 128%Z, false)).
Proof.
  split.
  - refine (proj1 (cache_parameters_constant LRU (ArgInt 128) no_choice 0%Z false
              identity 0 [call_int 1; call_int 1] [Run 0; Run 0; Run 0; Run 0]
              warm_cache ∅ _ _)).
    + reflexivity.
    + vm_compute. reflexivity.
  - vm_compute. reflexivity.
Defined.




(** ** The unbounded caches *)

(** C7: [ttl_cache(maxsize=None)] builds an [_UnboundTTLCache], and in
    every state its wrapper reaches the cache is a TTL cache of infinite
    capacity: a store never fails and removes no other entry, a lookup
    removes at most the entry of its key, and only if that has expired;
    [cache_info()] and [cache_parameters()] report [maxsize] as [None].
    The other five constructors, given [None], build a wrapper around an
    empty dict, where a store keeps every other entry and a lookup keeps
    them all. *)
Theorem unbounded_ttl_cache (t : Z) (typed : bool) :
  ttl_cache ArgNone t typed = ADecorator (_cache (_UnboundTTLCache t) None typed) /\
  (forall p ch, p <> TTL ->
     constructor p ArgNone ch t typed = ADecorator (_cache (PyDict ∅) None typed)) /\
  (forall f now l acts s,
     run (spawn (wrap (ttl_cache ArgNone t typed) f) now l) acts = Some s ->
     exists b, w_cache (closure s) = UnboundTTL b /\
       policy b = TTL /\ capacity b = Infinite /\
       ci_maxsize (cache_info (closure s)) = None /\
       cache_parameters (closure s) = (None, typed) /\
       (forall now' k v,
          exists b', cache_setitem now' (UnboundTTL b) k v = Some (UnboundTTL b') /\
            forall k' e, k' <> k -> entries b !! k' = Some e ->
                         entries b' !! k' = Some e) /\
       (forall now' k k' e,
          entries b !! k' = Some e -> entries (bc_get now' b k).2 !! k' = None ->
          k' = k /\ expired now' e = true)) /\
  (forall d now k v,
     cache_setitem now (PyDict d) k v = Some (PyDict (<[k := v]> d)) /\
     (forall k', k' <> k -> <[k := v]> d !! k' = d !! k') /\
     cache_getitem now (PyDict d) k = (d !! k, PyDict d)).
Proof.
  split; [reflexivity|]. split; [by intros [] ch|]. split.
  - intros f now l acts s Hr.
    pose proof (unbounded_run _ _ _ (conj eq_refl eq_refl : unbounded_ttl
      (w_cache (closure (spawn (wrap (ttl_cache ArgNone t typed) f) now l)))) Hr) as Hu.
    destruct (run_static _ _ _ Hr) as (_ & Hm & Ht). simpl in Hm, Ht.
    destruct (w_cache (closure s)) as [|b0|b] eqn:Hw; [done..|].
    destruct Hu as [Hp Hc]. exists b. repeat (split; [done|]).
    split; [unfold cache_info; by rewrite Hw|].
    split; [unfold cache_parameters; by rewrite Hm, Ht|]. split.
    + intros now' k v.
      destruct (unbounded_put now' b k v Hp Hc) as (b' & Hput & _ & _ & _ & Hkeep).
      exists b'. simpl. by rewrite Hput.
    + intros now' k k' e. by apply unbounded_get.
  - intros d now k v. split; [done|]. split; [|done].
    intros k' Hne. by rewrite lookup_insert_ne.
Qed.

Lemma unbounded_ttl_cache_witness :
  cache_info (closure ttl_callers_done) = _CacheInfo 0 3 None 2 /\
  exists b, w_cache (closure ttl_callers_done) = UnboundTTL b /\
    policy b = TTL /\ capacity b = Infinite /\
    cache_parameters (closure ttl_callers_done) = (None, false).
Proof.
  split; [vm_compute; reflexivity|].
  destruct (unbounded_ttl_cache 5 false) as (_ & _ & H & _).
  destruct (H identity 0%Z [call_int 1; call_int 2; call_int 1]
              ttl_callers_schedule ttl_callers_done)
    as (b & Hb & Hp & Hc & _ & Hpar & _).
  - vm_compute. reflexivity.
  - exists b. repeat (split; [assumption|]). assumption.
Defined.

(** ** One call after another *)

Lemma run_cons s act s1 acts :
  exec s act = Some s1 -> run s (act :: acts) = run s1 acts.
Proof. intros He. simpl. by rewrite He. Qed.


Lemma solo_hit s i a v c0 acts :
  threads s !! i = Some (Waiting a) ->
  cache_key (closure s) a ∉ pending (closure s) ->
  cache_getitem (clock s) (w_cache (closure s)) (cache_key (closure s) a) = (Some v, c0) ->
  run s (Run i :: acts)
  = run (System (set_shared (closure s) c0 (pending (closure s))
                   (S (hits (closure s))) (misses (closure s)))
           (clock s) (<[i := Done a (inl v)]> (threads s)) (computed s)) acts.
Proof.
  intros Hi Hout Hget. apply run_cons.
  simpl. rewrite Hi. simpl. rewrite decide_False by done. by rewrite Hget.
Qed.

Lemma run_app acts1 : forall s s1 acts2,
  run s acts1 = Some s1 -> run s (acts1 ++ acts2) = run s1 acts2.
Proof.
  induction acts1 as [|act acts1 IH]; intros s s1 acts2 Hr; simpl in *.
  - by simplify_eq.
  - destruct (exec s act) as [s0|]; simpl in *; [|done]. by apply IH.
Qed.

(** ** New caches *)







(** ** Typed keys *)






(** * Further properties of [wrapper] *)

(** ** One pending key for each thread in flight *)

Lemma flights_exec s act s' :
  guarded s -> size (pending (closure s)) = count in_flight (threads s) ->
  exec s act = Some s' ->
  size (pending (closure s')) = count in_flight (threads s').
Proof.
  intros G Hsz Hex. destruct act as [i| |d]; simpl in Hex; [|by simplify_eq..].
  destruct (threads s !! i) as [t|] eqn:Hi; simpl in Hex; [|done].
  pose proof (fun t' => count_update in_flight _ _ _ t' Hi) as C.
  destruct t as [a|a|a|a v|a r|a r]; simpl in Hex.
  - destruct (decide (cache_key (closure s) a ∈ pending (closure s))) as [Hin|Hout].
    + simplify_eq. simpl. specialize (C (Asleep a)). simpl in C. lia.
    + destruct (cache_getitem _ _ _) as [[result|] c]; simplify_eq; simpl.
      * specialize (C (Done a (inl result))). simpl in C. lia.
      * specialize (C (Computing a)). simpl in C.
        rewrite size_union by (by apply disjoint_singleton_l).
        rewrite size_singleton. lia.
  - done.
  - destruct (func (closure s) a) as [v|e]; simplify_eq; simpl.
    + specialize (C (Storing a v)). simpl in C. lia.
    + specialize (C (Finishing a (inr (Raised e)))). simpl in C. lia.
  - destruct (cache_setitem _ _ _ _); simplify_eq; simpl;
      specialize (C (Finishing a (inl v))); simpl in C; lia.
  - destruct (finishing_step _ _ _ _ G Hi) as [Hin Hst].
    simpl in Hst. rewrite Hi in Hst. simpl in Hst. rewrite Hst in Hex.
    simplify_eq. simpl.
    rewrite count_notify by apply in_flight_wake.
    specialize (C (Done a r)). simpl in C.
    rewrite size_difference by (by apply singleton_subseteq_l).
    rewrite size_singleton. lia.
  - done.
Qed.

Lemma flights_run acts : forall s s',
  guarded s -> size (pending (closure s)) = count in_flight (threads s) ->
  run s acts = Some s' ->
  size (pending (closure s')) = count in_flight (threads s').
Proof.
  induction acts as [|act acts IH]; intros s s' G Hsz Hr; simpl in Hr; [by simplify_eq|].
  destruct (exec s act) as [s1|] eqn:He; simpl in Hr; [|done].
  eapply IH; [| |done]; eauto using guarded_exec, flights_exec.
Qed.

Lemma count_le f ts : count f ts <= length ts.
Proof.
  unfold count. induction ts as [|t ts IH]; simpl; [done|].
  destruct (f t); simpl; lia.
Qed.

(** X1: in every reachable state the pending set has exactly one key
    for each thread in flight (between its miss and the end of its
    [finally:]), whatever [cache_clear()] and the cache did in between;
    so it never holds more keys than there are callers, and it is empty
    once every call has returned: no key is left behind. *)
Theorem pending_counts_flights (s : system) :
  reachable s ->
  size (pending (closure s)) = count in_flight (threads s) /\
  size (pending (closure s)) <= length (threads s) /\
  (completed s -> pending (closure s) = ∅).
Proof.
  intros Hre. pose proof (reachable_guarded _ Hre) as G.
  destruct Hre as (w & now & l & acts & Hp & Hr).
  assert (Hsz : size (pending (closure s)) = count in_flight (threads s)).
  { eapply flights_run; [| |done]; [by apply guarded_spawn|].
    simpl. rewrite Hp, size_empty. symmetry. apply count_none.
    intros i t Hi. rewrite list_lookup_fmap in Hi. destruct (l !! i); by simplify_eq/=. }
  split; [done|]. split.
  - rewrite Hsz. apply count_le.
  - intros Hc. apply leibniz_equiv, size_empty_inv. rewrite Hsz.
    rewrite count_none; [done|].
    intros i t Hi. pose proof (completed_lookup _ _ _ Hc Hi). by destruct t.
Qed.

Lemma pending_counts_flights_witness :
  size (pending (closure raised_with_waiter)) = count in_flight (threads raised_with_waiter) /\
  count in_flight (threads raised_with_waiter) = 1.
Proof.
  assert (Hre : reachable raised_with_waiter).
  { exists (wrap (fifo_cache (ArgInt 2) false) failing), 0%Z,
      [call_int 1; call_int 1], [Run 0; Run 1; Run 0].
    split; [reflexivity|]. vm_compute. reflexivity. }
  split; [exact (proj1 (pending_counts_flights raised_with_waiter Hre))|reflexivity].
Defined.

(** ** The failures of a call *)

Lemma result_of_wake t : result_of (wake t) = result_of t.
Proof. by destruct t. Qed.

Lemma raised_by_func_spawn w now l : raised_by_func (spawn w now l).
Proof.
  intros i t r Hi Hr. simpl in Hi. rewrite list_lookup_fmap in Hi.
  destruct (l !! i); simplify_eq/=.
Qed.

Lemma raised_by_func_exec s act s' :
  guarded s -> raised_by_func s -> exec s act = Some s' -> raised_by_func s'.
Proof.
  intros G R Hex. destruct act as [i| |d]; simpl in Hex; [|by simplify_eq..].
  destruct (threads s !! i) as [t|] eqn:Hi; simpl in Hex; [|done].
  destruct t as [a|a|a|a v|a r|a r]; simpl in Hex.
  - repeat case_match; simplify_eq; intros j u r Hj Hu; simpl in *;
      (apply (lookup_update _ _ _ _ _ _ Hi) in Hj as [[<- ->]|[Hne Hj]];
       [done|by apply (R j)]).
  - done.
  - destruct (func (closure s) a) as [v|e] eqn:Hf; simplify_eq;
      intros j u r Hj Hu; simpl in *;
      (apply (lookup_update _ _ _ _ _ _ Hi) in Hj as [[<- ->]|[Hne Hj]];
       [|by apply (R j)]); simplify_eq/=. eauto.
  - repeat case_match; simplify_eq; intros j u r Hj Hu; simpl in *;
      (apply (lookup_update _ _ _ _ _ _ Hi) in Hj as [[<- ->]|[Hne Hj]];
       [done|by apply (R j)]).
  - destruct (finishing_step _ _ _ _ G Hi) as [Hin Hst].
    simpl in Hst. rewrite Hi in Hst. simpl in Hst. rewrite Hst in Hex.
    simplify_eq. intros j u r' Hj Hu. simpl in *.
    rewrite notify_all_lookup in Hj.
    destruct (_ !! j) as [u0|] eqn:Hj0; simplify_eq/=.
    rewrite result_of_wake in Hu. rewrite args_of_wake.
    apply (lookup_update _ _ _ _ _ _ Hi) in Hj0 as [[<- ->]|[Hne Hj]].
    + simpl in *. simplify_eq. by apply (R i (Finishing a (inr r')) r' Hi).
    + by apply (R j).
  - done.
Qed.

Lemma raised_by_func_run acts : forall s s',
  guarded s -> raised_by_func s -> run s acts = Some s' -> raised_by_func s'.
Proof.
  induction acts as [|act acts IH]; intros s s' G R Hr; simpl in Hr; [by simplify_eq|].
  destruct (exec s act) as [s1|] eqn:He; simpl in Hr; [|done].
  eapply IH; [| |done]; eauto using guarded_exec, raised_by_func_exec.
Qed.

(** X2: [finally:] never fails, and a failure is the caller's own.  In
    every reachable state, a call that has raised did not fail in
    [pending.remove(k)] (its key was pending, whatever the interleaving
    and whatever [cache_clear()] did), and when it raised an exception
    of [func], that is the exception [func] raised on this call's own
    arguments: the error of one caller is never handed to another
    caller of the same key. *)
Theorem failure_is_the_callers_own (s : system) (i : nat) (a : call_args) (r : exn) :
  reachable s -> threads s !! i = Some (Done a (inr r)) ->
  r <> KeyError /\ (forall e, r = Raised e -> func (closure s) a = inr e).
Proof.
  intros (w & now & l & acts & Hp & Hr) Hi.
  assert (R : raised_by_func s).
  { eapply raised_by_func_run; [| |done];
      [by apply guarded_spawn|apply raised_by_func_spawn]. }
  destruct (R i (Done a (inr r)) r Hi eq_refl) as (e & -> & He).
  split; [done|]. intros e' [= <-]. exact He.
Qed.

Lemma failure_is_the_callers_own_witness :
  threads raised_and_returned !! 0
  = Some (Done (call_int 1) (inr (Raised "RuntimeError"))) /\
  func (closure raised_and_returned) (call_int 1) = inr "RuntimeError"%string.
Proof.
  split; [reflexivity|].
  refine (proj2 (failure_is_the_callers_own raised_and_returned 0 (call_int 1)
                   (Raised "RuntimeError") _ _) "RuntimeError"%string eq_refl).
  - exists (wrap (fifo_cache (ArgInt 2) false) failing), 0%Z,
      [call_int 1; call_int 1], [Run 0; Run 1; Run 0; Run 0].
    split; [reflexivity|]. vm_compute. reflexivity.
  - reflexivity.
Defined.

(** ** No deadlock *)

Lemma count_pos f ts :
  0 < count f ts -> exists i t, ts !! i = Some t /\ f t = true.
Proof.
  unfold count. induction ts as [|u ts IH]; simpl; [lia|].
  destruct (f u) eqn:Hu; simpl.
  - intros _. by exists 0, u.
  - intros Hpos. destruct (IH Hpos) as (i & t & Hi & Ht). by exists (S i), t.
Qed.

Lemma count_zero f ts :
  count f ts = 0 -> forall i t, ts !! i = Some t -> f t = false.
Proof.
  unfold count. induction ts as [|u ts IH]; intros Hz [|i] t Hi; simplify_eq/=.
  - destruct (f t); [discriminate|done].
  - apply (IH ltac:(lia) i t Hi).
Qed.

Lemma unfinished_wake t : unfinished (wake t) = unfinished t.
Proof. by destruct t. Qed.

(** A thread in [finally:] returns in one transition. *)
Lemma finish_one s i a r :
  guarded s -> threads s !! i = Some (Finishing a r) ->
  exists s', run s [Run i] = Some s' /\
    count unfinished (threads s') + 1 = count unfinished (threads s).
Proof.
  intros G Hi. destruct (finishing_step _ _ _ _ G Hi) as [_ Hst].
  eexists. split; [by erewrite run_cons by exact Hst|]. simpl.
  rewrite count_notify by apply unfinished_wake.
  pose proof (count_update unfinished _ _ _ (Done a r) Hi) as C. simpl in C. lia.
Qed.

(** A thread that has its value returns in two transitions. *)
Lemma store_then_finish s i a v :
  guarded s -> threads s !! i = Some (Storing a v) ->
  exists acts s', run s acts = Some s' /\ length acts <= 2 /\
    count unfinished (threads s') + 1 = count unfinished (threads s).
Proof.
  intros G Hi.
  assert (Hlt : i < length (threads s)) by (eapply lookup_lt_Some; eauto).
  destruct (exec s (Run i)) as [s2|] eqn:He.
  2: { simpl in He. rewrite Hi in He. simpl in He. by repeat case_match. }
  assert (Hi2 : threads s2 !! i = Some (Finishing a (inl v)) /\
                count unfinished (threads s2) = count unfinished (threads s)).
  { pose proof (count_update unfinished _ _ _ (Finishing a (inl v)) Hi) as C.
    simpl in He, C. rewrite Hi in He. simpl in He.
    repeat case_match; simplify_eq; simpl;
      (split; [by apply list_lookup_insert_eq|lia]). }
  destruct Hi2 as [Hi2 Hc2].
  destruct (finish_one s2 i a (inl v)) as (s' & Hr & Hc);
    [by eapply guarded_exec|done|].
  exists [Run i; Run i], s'. split; [by erewrite run_cons by exact He|].
  split; [simpl; lia|lia].
Qed.

(** A thread in flight returns in at most three transitions of its own. *)
Lemma flight_lands s i t :
  guarded s -> threads s !! i = Some t -> in_flight t = true ->
  exists acts s', run s acts = Some s' /\ length acts <= 3 /\
    count unfinished (threads s') + 1 = count unfinished (threads s).
Proof.
  intros G Hi Hf.
  assert (Hlt : i < length (threads s)) by (eapply lookup_lt_Some; eauto).
  destruct t as [a|a|a|a v|a r|a r]; try done.
  - destruct (func (closure s) a) as [v|e] eqn:Hfn.
    + set (s1 := System (closure s) (clock s) (<[i := Storing a v]> (threads s))
                   (computed s ++ [a])).
      assert (He : exec s (Run i) = Some s1).
      { simpl. rewrite Hi. simpl. by rewrite Hfn. }
      pose proof (count_update unfinished _ _ _ (Storing a v) Hi) as C. simpl in C.
      destruct (store_then_finish s1 i a v) as (acts & s' & Hr & Hl & Hc).
      { by eapply guarded_exec. }
      { simpl. by apply list_lookup_insert_eq. }
      exists (Run i :: acts), s'. split; [by erewrite run_cons by exact He|].
      simpl in *. split; lia.
    + set (s1 := System (closure s) (clock s)
                   (<[i := Finishing a (inr (Raised e))]> (threads s))
                   (computed s ++ [a])).
      assert (He : exec s (Run i) = Some s1).
      { simpl. rewrite Hi. simpl. by rewrite Hfn. }
      pose proof (count_update unfinished _ _ _ (Finishing a (inr (Raised e))) Hi) as C.
      simpl in C.
      destruct (finish_one s1 i a (inr (Raised e))) as (s' & Hr & Hc).
      { by eapply guarded_exec. }
      { simpl. by apply list_lookup_insert_eq. }
      exists [Run i; Run i], s'. split; [by erewrite run_cons by exact He|].
      simpl in *. split; lia.
  - destruct (store_then_finish s i a v G Hi) as (acts & s' & Hr & Hl & Hc).
    exists acts, s'. split; [done|]. split; lia.
  - destruct (finish_one s i a r G Hi) as (s' & Hr & Hc).
    exists [Run i], s'. split; [done|]. simpl. split; lia.
Qed.

(** While a call has not returned, some call can be brought to its
    return: a thread in flight if there is one, and otherwise a thread
    that waits, which cannot be asleep, since nothing is pending. *)
Lemma one_returns s :
  guarded s -> 0 < count unfinished (threads s) ->
  exists acts s', run s acts = Some s' /\ length acts <= 4 /\
    count unfinished (threads s') + 1 = count unfinished (threads s).
Proof.
  intros G Hpos.
  destruct (count in_flight (threads s)) as [|n] eqn:Hfl.
  - pose proof (count_zero _ _ Hfl) as Hnone.
    assert (Hp : forall k, k ∉ pending (closure s)).
    { intros k Hk. apply (g_pending _ _ _ G) in Hk as (j & u & Hj & Hu & _).
      rewrite (Hnone j u Hj) in Hu. done. }
    destruct (count_pos _ _ Hpos) as (i & t & Hi & Ht).
    assert (Hlt : i < length (threads s)) by (eapply lookup_lt_Some; eauto).
    pose proof (Hnone i t Hi) as Hfi.
    destruct t as [a|a|a|a v|a r|a r]; try done.
    + destruct (cache_getitem (clock s) (w_cache (closure s))
                  (cache_key (closure s) a)) as [[v|] c] eqn:Hget.
      * eexists [Run i], _. split.
        { erewrite solo_hit by (done || apply Hp). reflexivity. }
        simpl. split; [lia|].
        pose proof (count_update unfinished _ _ _ (Done a (inl v)) Hi) as C.
        simpl in C. lia.
      * set (s1 := System (set_shared (closure s) c
                     ({[cache_key (closure s) a]} ∪ pending (closure s))
                     (hits (closure s)) (S (misses (closure s))))
                     (clock s) (<[i := Computing a]> (threads s)) (computed s)).
        assert (He : exec s (Run i) = Some s1).
        { simpl. rewrite Hi. simpl. rewrite decide_False by apply Hp.
          by rewrite Hget. }
        pose proof (count_update unfinished _ _ _ (Computing a) Hi) as C. simpl in C.
        destruct (flight_lands s1 i (Computing a)) as (acts & s' & Hr & Hl & Hc).
        { by eapply guarded_exec. }
        { simpl. by apply list_lookup_insert_eq. }
        { done. }
        exists (Run i :: acts), s'. split; [by erewrite run_cons by exact He|].
        simpl in *. split; lia.
    + destruct (Hp _ (g_asleep _ _ _ G i a Hi)).
  - destruct (count_pos in_flight (threads s)) as (i & t & Hi & Ht); [lia|].
    destruct (flight_lands s i t G Hi Ht) as (acts & s' & Hr & Hl & Hc).
    exists acts, s'. split; [done|]. split; lia.
Qed.

Lemma all_return n : forall s,
  guarded s -> count unfinished (threads s) = n ->
  exists acts s', run s acts = Some s' /\ completed s' /\ length acts <= 4 * n.
Proof.
  induction n as [|n IH]; intros s G Hn.
  - exists [], s. split; [done|]. split; [|simpl; lia].
    apply Forall_lookup. intros i t Hi.
    pose proof (count_zero _ _ Hn i t Hi) as Hu. by destruct t.
  - destruct (one_returns s G) as (acts1 & s1 & Hr1 & Hl1 & Hc1); [lia|].
    destruct (IH s1) as (acts2 & s' & Hr2 & Hd & Hl2);
      [by eapply guarded_run|lia|].
    exists (acts1 ++ acts2), s'. split; [by rewrite (run_app _ _ _ _ Hr1)|].
    split; [done|]. rewrite length_app. lia.
Qed.

(** X3: the wrapper cannot deadlock.  From every reachable state,
    with threads asleep in [cond.wait_for] or not, there is a schedule
    that brings every call to its return, of at most four transitions
    for each call that has not returned: no wake-up is lost, since a
    thread sleeps only while the owner of its key is in flight, and that
    owner notifies every sleeper in its [finally:]. *)
Theorem calls_can_all_return (s : system) :
  reachable s ->
  exists acts s', run s acts = Some s' /\ completed s' /\
    length acts <= 4 * count unfinished (threads s).
Proof.
  intros Hre. apply all_return; [by apply reachable_guarded|done].
Qed.

Lemma calls_can_all_return_witness :
  threads raised_with_waiter
  = [Finishing (call_int 1) (inr (Raised "RuntimeError")); Asleep (call_int 1)] /\
  exists acts s', run raised_with_waiter acts = Some s' /\ completed s' /\
    length acts <= 4 * count unfinished (threads raised_with_waiter).
Proof.
  split; [reflexivity|].
  apply (calls_can_all_return raised_with_waiter).
  exists (wrap (fifo_cache (ArgInt 2) false) failing), 0%Z,
    [call_int 1; call_int 1], [Run 0; Run 1; Run 0].
  split; [reflexivity|]. vm_compute. reflexivity.
Defined.

(** ** Where the values come from *)

Lemma live_bc_put_same now c k v c' v' :
  bc_put now c k v = Some c' -> live now c' k = Some v' -> v' = v.
Proof.
  unfold bc_put. destruct (too_large c); [done|].
  destruct (entries c !! k) as [e|] eqn:He; intros [= <-].
  - rewrite live_touch. unfold live. simpl.
    rewrite lookup_alter. case_decide; [|done]. rewrite He. simpl.
    repeat case_match; congruence.
  - unfold live. simpl. rewrite lookup_insert_eq.
    repeat case_match; simpl in *; congruence.
Qed.

(** What a lookup finds under a key right after a store under that key
    is the value stored. *)
Lemma peek_setitem_same now c k v c' v' :
  cache_setitem now c k v = Some c' -> peek now c' k = Some v' -> v' = v.
Proof.
  destruct c as [d|b|b]; simpl.
  - intros [= <-]. simpl. rewrite lookup_insert_eq. congruence.
  - destruct (bc_put now b k v) as [b'|] eqn:Hb; intros [= <-]; simpl.
    eauto using live_bc_put_same.
  - destruct (bc_put now b k v) as [b'|] eqn:Hb; intros [= <-]; simpl.
    eauto using live_bc_put_same.
Qed.

Lemma produced_mono s s' k v :
  closure s' = closure s -> computed s ⊆ computed s' ->
  produced s k v -> produced s' k v.
Proof.
  intros Hcl Hsub (b & Hb & Hk & Hf). exists b. rewrite Hcl.
  split; [by apply Hsub|done].
Qed.

Lemma provenance_spawn w now l :
  (forall t k, peek t (w_cache w) k = None) -> provenance (spawn w now l).
Proof.
  intros He. split.
  - intros k v Hc. unfold cached in Hc. simpl in Hc. by rewrite He in Hc.
  - intros i a v Hi. simpl in Hi. rewrite list_lookup_fmap in Hi.
    destruct (l !! i); simplify_eq/=.
  - intros i t v Hi Hr. simpl in Hi. rewrite list_lookup_fmap in Hi.
    destruct (l !! i); simplify_eq/=.
Qed.

Lemma provenance_exec s act s' :
  guarded s -> provenance s -> exec s act = Some s' -> provenance s'.
Proof.
  intros G [Pc Ps Pv] Hex. destruct act as [i| |d]; simpl in Hex.
  - destruct (threads s !! i) as [t|] eqn:Hi; simpl in Hex; [|done].
    destruct t as [a|a|a|a v|a r|a r]; simpl in Hex.
    + destruct (decide (cache_key (closure s) a ∈ pending (closure s))) as [Hin|Hout].
      * simplify_eq. split; simpl.
        -- done.
        -- intros j b v Hj.
           apply (lookup_update _ _ _ _ _ _ Hi) in Hj as [[<- ?]|[Hne Hj]]; [done|].
           by apply (Ps j).
        -- intros j u v Hj Hu.
           apply (lookup_update _ _ _ _ _ _ Hi) in Hj as [[<- ->]|[Hne Hj]]; [done|].
           by apply (Pv j).
      * pose proof (cache_getitem_peek (clock s) (w_cache (closure s))
                      (cache_key (closure s) a)) as Hpk.
        pose proof (peek_getitem (clock s) (w_cache (closure s))
                      (cache_key (closure s) a)) as Hfr.
        destruct (cache_getitem (clock s) (w_cache (closure s))
                    (cache_key (closure s) a)) as [[result|] c];
          simpl in Hpk, Hfr; simplify_eq; split; unfold cached, produced; simpl;
          rewrite ?cache_key_set_shared.
        -- intros k v. rewrite Hfr. apply Pc.
        -- intros j b v Hj.
           apply (lookup_update _ _ _ _ _ _ Hi) in Hj as [[<- ?]|[Hne Hj]]; [done|].
           by apply (Ps j).
        -- intros j u v Hj Hu.
           apply (lookup_update _ _ _ _ _ _ Hi) in Hj as [[<- ->]|[Hne Hj]].
           ++ simpl in *. simplify_eq. by apply Pc.
           ++ by apply (Pv j).
        -- intros k v. rewrite Hfr. apply Pc.
        -- intros j b v Hj.
           apply (lookup_update _ _ _ _ _ _ Hi) in Hj as [[<- ?]|[Hne Hj]]; [done|].
           by apply (Ps j).
        -- intros j u v Hj Hu.
           apply (lookup_update _ _ _ _ _ _ Hi) in Hj as [[<- ->]|[Hne Hj]]; [done|].
           by apply (Pv j).
    + done.
    + assert (Hmono : forall s1 k v, closure s1 = closure s ->
                computed s1 = computed s ++ [a] -> produced s k v -> produced s1 k v).
      { intros s1 k v Hcl Hco. apply produced_mono; [done|].
        rewrite Hco. intros x Hx. apply elem_of_app. by left. }
      destruct (func (closure s) a) as [v|e] eqn:Hf; simplify_eq; split; simpl.
      all: try (intros k v0 Hc; (eapply Hmono; [reflexivity|reflexivity|]);
                apply Pc; exact Hc).
      * intros j b v0 Hj.
        apply (lookup_update _ _ _ _ _ _ Hi) in Hj as [[<- ?]|[Hne Hj]].
        -- simplify_eq. split; [|done]. apply elem_of_app. right.
           apply elem_of_cons. by left.
        -- destruct (Ps j b v0 Hj). split; [|done]. apply elem_of_app. by left.
      * intros j u v0 Hj Hu.
        apply (lookup_update _ _ _ _ _ _ Hi) in Hj as [[<- ->]|[Hne Hj]]; [done|].
        (eapply Hmono; [reflexivity|reflexivity|]); by apply (Pv j).
      * intros j b v0 Hj.
        apply (lookup_update _ _ _ _ _ _ Hi) in Hj as [[<- ?]|[Hne Hj]]; [done|].
        destruct (Ps j b v0 Hj). split; [|done]. apply elem_of_app. by left.
      * intros j u v0 Hj Hu.
        apply (lookup_update _ _ _ _ _ _ Hi) in Hj as [[<- ->]|[Hne Hj]]; [done|].
        (eapply Hmono; [reflexivity|reflexivity|]); by apply (Pv j).
    + destruct (Ps i a v Hi) as [Hin Hf].
      assert (Hown : produced s (cache_key (closure s) a) v) by (by exists a).
      destruct (cache_setitem (clock s) (w_cache (closure s))
                  (cache_key (closure s) a) v) as [c|] eqn:Hset;
        simplify_eq; split; unfold cached, produced; simpl;
        rewrite ?cache_key_set_shared.
      * intros k v' Hv'. destruct (decide (k = cache_key (closure s) a)) as [->|Hne].
        -- by rewrite (peek_setitem_same _ _ _ _ _ _ Hset Hv').
        -- apply Pc. eapply peek_setitem; eauto.
      * intros j b v0 Hj.
        apply (lookup_update _ _ _ _ _ _ Hi) in Hj as [[<- ?]|[Hne Hj]]; [done|].
        by apply (Ps j).
      * intros j u v0 Hj Hu.
        apply (lookup_update _ _ _ _ _ _ Hi) in Hj as [[<- ->]|[Hne Hj]].
        -- simpl in *. by simplify_eq.
        -- by apply (Pv j).
      * apply Pc.
      * intros j b v0 Hj.
        apply (lookup_update _ _ _ _ _ _ Hi) in Hj as [[<- ?]|[Hne Hj]]; [done|].
        by apply (Ps j).
      * intros j u v0 Hj Hu.
        apply (lookup_update _ _ _ _ _ _ Hi) in Hj as [[<- ->]|[Hne Hj]].
        -- simpl in *. by simplify_eq.
        -- by apply (Pv j).
    + destruct (finishing_step _ _ _ _ G Hi) as [Hin Hst].
      simpl in Hst. rewrite Hi in Hst. simpl in Hst. rewrite Hst in Hex.
      simplify_eq. split; unfold cached, produced; simpl;
        rewrite ?cache_key_set_shared.
      * apply Pc.
      * intros j b v Hj. rewrite notify_all_lookup in Hj.
        destruct (_ !! j) as [u0|] eqn:Hj0; simplify_eq/=.
        apply (lookup_update _ _ _ _ _ _ Hi) in Hj0 as [[<- ->]|[Hne Hj0]]; [done|].
        destruct u0; simplify_eq/=. by apply (Ps j).
      * intros j u v Hj Hu. rewrite notify_all_lookup in Hj.
        destruct (_ !! j) as [u0|] eqn:Hj0; simplify_eq/=.
        rewrite result_of_wake in Hu. rewrite args_of_wake.
        apply (lookup_update _ _ _ _ _ _ Hi) in Hj0 as [[<- ->]|[Hne Hj0]].
        -- simpl in *. simplify_eq. by apply (Pv i (Finishing a (inl v))).
        -- by apply (Pv j).
    + done.
  - simplify_eq. split; unfold cached, produced; simpl; rewrite ?cache_key_clear.
    + intros k v. by rewrite peek_clear.
    + done.
    + done.
  - simplify_eq. split; unfold cached, produced; simpl.
    + intros k v Hv. apply peek_later in Hv. by apply Pc.
    + done.
    + done.
Qed.

Lemma provenance_run acts : forall s s',
  guarded s -> provenance s -> run s acts = Some s' -> provenance s'.
Proof.
  induction acts as [|act acts IH]; intros s s' G P Hr; simpl in Hr; [by simplify_eq|].
  destruct (exec s act) as [s1|] eqn:He; simpl in Hr; [|done].
  eapply IH; [| |done]; eauto using guarded_exec, provenance_exec.
Qed.

(** [func] is called with the arguments of a caller. *)
Lemma computed_exec s act s' :
  (forall b, b ∈ computed s -> b ∈ args_of <$> threads s) ->
  exec s act = Some s' ->
  forall b, b ∈ computed s' -> b ∈ args_of <$> threads s'.
Proof.
  intros Hc Hex b.
  rewrite (run_args [act] s s') by (simpl; by rewrite Hex).
  destruct act as [i| |d]; simpl in Hex; [|simplify_eq; apply Hc..].
  destruct (threads s !! i) as [t|] eqn:Hi; simpl in Hex; [|done].
  assert (Ht : args_of t ∈ args_of <$> threads s).
  { apply list_elem_of_fmap. exists t. split; [done|].
    apply list_elem_of_lookup. eauto. }
  destruct t; simpl in Hex; repeat case_match; simplify_eq; simpl; try apply Hc.
  all: intros [Hb|Hb]%elem_of_app; [by apply Hc|].
  all: apply elem_of_cons in Hb as [->|Hb]; [done|by apply elem_of_nil in Hb].
Qed.

Lemma computed_run acts : forall s s',
  (forall b, b ∈ computed s -> b ∈ args_of <$> threads s) ->
  run s acts = Some s' ->
  forall b, b ∈ computed s' -> b ∈ args_of <$> threads s'.
Proof.
  induction acts as [|act acts IH]; intros s s' Hc Hr; simpl in Hr; [by simplify_eq|].
  destruct (exec s act) as [s1|] eqn:He; simpl in Hr; [|done].
  eapply IH; [|done]. eauto using computed_exec.
Qed.

Lemma spawn_args w now l : args_of <$> threads (spawn w now l) = l.
Proof. simpl. rewrite <- list_fmap_compose. apply list_fmap_id. Qed.

Lemma computed_among_calls w now l acts s b :
  run (spawn w now l) acts = Some s -> b ∈ computed s -> b ∈ l.
Proof.
  intros Hr Hb.
  rewrite <- (spawn_args w now l), <- (run_args _ _ _ Hr).
  eapply computed_run; [|done..]. simpl. intros x Hx. by apply elem_of_nil in Hx.
Qed.

(** X4: a wrapper never makes a value up.  On a wrapper with an
    empty cache and nothing pending, after any interleaving of the calls
    [l] with [cache_clear()] and the passing of time, a value [v]
    returned to the caller of [a], from the cache or not, is a value
    that [func] returned during the run, for one of the calls of [l]
    whose key is the key of [a]. *)
Theorem returned_value_was_computed (w : wrapper) (now : Z) (l : list call_args)
    (acts : list action) (s : system) (i : nat) (a : call_args) (v : pyval) :
  pending w = ∅ ->
  (forall t k, peek t (w_cache w) k = None) ->
  run (spawn w now l) acts = Some s ->
  threads s !! i = Some (Done a (inl v)) ->
  exists b, b ∈ computed s /\ b ∈ l /\
    cache_key w b = cache_key w a /\ func w b = inl v.
Proof.
  intros Hp He Hr Hi.
  assert (P : provenance s).
  { eapply provenance_run; [| |done]; [by apply guarded_spawn|by apply provenance_spawn]. }
  destruct (p_value _ P i _ v Hi eq_refl) as (b & Hb & Hk & Hf).
  rewrite (run_cache_key _ _ _ Hr) in Hk.
  destruct (run_static _ _ _ Hr) as (Hfn & _). rewrite Hfn in Hf. simpl in *.
  exists b. split; [done|]. split; [by eapply computed_among_calls|done].
Qed.

Lemma returned_value_was_computed_witness :
  threads three_callers_done !! 2 = Some (Done (call_float 1) (inl (PInt 1))) /\
  exists b, b ∈ computed three_callers_done /\
    b ∈ [call_int 1; call_int 2; call_float 1] /\
    cache_key (wrap (fifo_cache ArgNone false) identity) b
    = cache_key (wrap (fifo_cache ArgNone false) identity) (call_float 1) /\
    func (wrap (fifo_cache ArgNone false) identity) b = inl (PInt 1).
Proof.
  split; [reflexivity|].
  apply (returned_value_was_computed (wrap (fifo_cache ArgNone false) identity) 0
           [call_int 1; call_int 2; call_float 1] three_callers_schedule
           three_callers_done 2 (call_float 1) (PInt 1)).
  - reflexivity.
  - intros t k. reflexivity.
  - vm_compute. reflexivity.
  - reflexivity.
Defined.

(** X5: memoization is transparent for a function of the key.  When
    [func] gives one outcome to all the calls of a key, then on a
    wrapper with an empty cache and nothing pending, after any
    interleaving with [cache_clear()] and the passing of time, every
    call that has returned has the outcome of [func] on its own
    arguments: the value [func] returns for them, or the error [func]
    raises for them. *)
Theorem memoization_transparent (w : wrapper) (now : Z) (l : list call_args)
    (acts : list action) (s : system) (i : nat) (a : call_args) (r : outcome) :
  pending w = ∅ ->
  (forall t k, peek t (w_cache w) k = None) ->
  (forall b c, cache_key w b = cache_key w c -> func w b = func w c) ->
  run (spawn w now l) acts = Some s ->
  threads s !! i = Some (Done a r) ->
  r = outcome_of (func w a).
Proof.
  intros Hp He Hext Hr Hi.
  pose proof (run_cache_key _ _ _ Hr) as Hk.
  destruct (run_static _ _ _ Hr) as (Hfn & _). simpl in *.
  destruct r as [v|r].
  - assert (P : provenance s).
    { eapply provenance_run; [| |done];
        [by apply guarded_spawn|by apply provenance_spawn]. }
    destruct (p_value _ P i _ v Hi eq_refl) as (b & Hb & Hkb & Hf).
    rewrite Hk in Hkb. rewrite Hfn in Hf. simpl in Hkb.
    by rewrite <- (Hext b a Hkb), Hf.
  - assert (R : raised_by_func s).
    { eapply raised_by_func_run; [| |done];
        [by apply guarded_spawn|apply raised_by_func_spawn]. }
    destruct (R i _ r Hi eq_refl) as (e & -> & Hf).
    rewrite Hfn in Hf. simpl in Hf. by rewrite Hf.
Qed.

Lemma memoization_transparent_witness :
  threads zero_callers_done !! 1 = Some (Done (call_float 1) (inl (PInt 0))) /\
  inl (PInt 0) = outcome_of (func (wrap (lru_cache ArgNone false) constant_zero) (call_float 1)).
Proof.
  split; [reflexivity|].
  apply (memoization_transparent (wrap (lru_cache ArgNone false) constant_zero) 0
           [call_int 1; call_float 1] zero_callers_schedule zero_callers_done
           1 (call_float 1) (inl (PInt 0))).
  - reflexivity.
  - intros t k. reflexivity.
  - intros b c _. reflexivity.
  - vm_compute. reflexivity.
  - reflexivity.
Defined.

(** ** The counters and the calls *)

Lemma tally_run acts : forall l s s',
  tally l s -> CacheClear ∉ acts -> run s acts = Some s' -> tally l s'.
Proof.
  induction acts as [|act acts IH]; intros l s s' T Hc Hr; simpl in Hr; [by simplify_eq|].
  destruct (exec s act) as [s1|] eqn:He; simpl in Hr; [|done].
  eapply IH; [|by intros Hin; apply Hc; right|done].
  eapply tally_exec; [done| |done]. intros ->. apply Hc. left.
Qed.

Lemma counted_exec s act s' :
  hits (closure s) + misses (closure s) <= count started (threads s) ->
  exec s act = Some s' ->
  hits (closure s') + misses (closure s') <= count started (threads s').
Proof.
  intros Hle Hex. destruct act as [i| |d]; simpl in Hex.
  - destruct (threads s !! i) as [t|] eqn:Hi; simpl in Hex; [|done].
    pose proof (fun t' => count_update started _ _ _ t' Hi) as Cs.
    destruct t; simpl in Hex; repeat case_match; simplify_eq; simpl;
      rewrite ?count_notify by (by intros []).
    all: match goal with
         | |- context [<[_ := ?t']> _] => specialize (Cs t')
         end; simpl in *; lia.
  - simplify_eq. simpl. lia.
  - by simplify_eq.
Qed.

Lemma served_exec s act s' :
  length (computed s) <= count served (threads s) ->
  exec s act = Some s' ->
  length (computed s') <= count served (threads s').
Proof.
  intros Hle Hex. destruct act as [i| |d]; simpl in Hex; [|by simplify_eq..].
  destruct (threads s !! i) as [t|] eqn:Hi; simpl in Hex; [|done].
  pose proof (fun t' => count_update served _ _ _ t' Hi) as Cs.
  destruct t; simpl in Hex; repeat case_match; simplify_eq; simpl;
    rewrite ?count_notify by (by intros []).
  all: match goal with
       | |- context [<[_ := ?t']> _] => specialize (Cs t')
       end; simpl in *; rewrite ?length_app; simpl; lia.
Qed.

Lemma counted_run acts : forall s s',
  hits (closure s) + misses (closure s) <= count started (threads s) ->
  length (computed s) <= count served (threads s) ->
  run s acts = Some s' ->
  hits (closure s') + misses (closure s') <= count started (threads s') /\
  length (computed s') <= count served (threads s').
Proof.
  induction acts as [|act acts IH]; intros s s' Hle Hse Hr; simpl in Hr; [by simplify_eq|].
  destruct (exec s act) as [s1|] eqn:He; simpl in Hr; [|done].
  eapply IH; [| |done]; eauto using counted_exec, served_exec.
Qed.

(** X6: the counters never run ahead of the calls, and [func] is
    never called more often than the wrapper.  On a wrapper whose
    counters are zero, after any interleaving of the [N] calls [l] with
    [cache_clear()] and the passing of time, [hits + misses] is at most
    the number of calls that have passed their lookup, hence at most
    [N], and [func] was called at most [N] times.  While no
    [cache_clear()] has run, [hits + misses] is exactly the number of
    calls past their lookup, and every miss is a call of [func] made or
    about to be made, whatever the cache stored or evicted. *)
Theorem counters_follow_calls (w : wrapper) (now : Z) (l : list call_args)
    (acts : list action) (s : system) :
  hits w = 0 -> misses w = 0 ->
  run (spawn w now l) acts = Some s ->
  hits (closure s) + misses (closure s) <= count started (threads s) /\
  count started (threads s) <= length l /\
  length (computed s) <= length l /\
  (CacheClear ∉ acts ->
     hits (closure s) + misses (closure s) = count started (threads s) /\
     length (computed s) + count computing (threads s) = misses (closure s)).
Proof.
  intros Hh Hm Hr.
  assert (Hlen : length (threads s) = length l).
  { rewrite <- (length_fmap args_of), (run_args _ _ _ Hr), spawn_args. done. }
  destruct (counted_run acts (spawn w now l) s) as [Hle Hse]; [| |done|].
  { simpl. rewrite Hh, Hm. lia. }
  { simpl. lia. }
  split; [done|]. split; [rewrite <- Hlen; apply count_le|].
  split; [rewrite <- Hlen; pose proof (count_le served (threads s)); lia|].
  intros Hc.
  destruct (tally_run acts l _ _ (tally_spawn w now l Hh Hm) Hc Hr) as [Ta Tc Tr].
  done.
Qed.

Lemma counters_follow_calls_witness :
  hits (closure three_callers_done) + misses (closure three_callers_done)
  = count started (threads three_callers_done) /\
  count started (threads three_callers_done) = 3 /\
  length (computed three_callers_done) = 2.
Proof.
  assert (Hc : CacheClear ∉ three_callers_schedule).
  { intros Hin. repeat (apply elem_of_cons in Hin as [Hin|Hin]; [discriminate|]).
    by apply elem_of_nil in Hin. }
  assert (Hr : run (spawn (wrap (fifo_cache ArgNone false) identity) 0
                      [call_int 1; call_int 2; call_float 1]) three_callers_schedule
               = Some three_callers_done) by (vm_compute; reflexivity).
  split; [|split; reflexivity].
  exact (proj1 (proj2 (proj2 (proj2
    (counters_follow_calls (wrap (fifo_cache ArgNone false) identity) 0
       [call_int 1; call_int 2; call_float 1] three_callers_schedule
       three_callers_done eq_refl eq_refl Hr))) Hc)).
Defined.

(** ** What is not in the cache *)

Lemma unsaved_in_flight t : unsaved t = true -> in_flight t = true.
Proof. by destruct t. Qed.

Lemma unsaved_wake t : unsaved (wake t) = unsaved t.
Proof. by destruct t. Qed.

Lemma uncached_spawn w now l : uncached (spawn w now l).
Proof.
  intros i t Hi Ht. simpl in Hi. rewrite list_lookup_fmap in Hi.
  destruct (l !! i); simplify_eq/=.
Qed.

Lemma uncached_exec s act s' :
  guarded s -> uncached s -> exec s act = Some s' -> uncached s'.
Proof.
  intros G U Hex. destruct act as [i| |d]; simpl in Hex.
  - destruct (threads s !! i) as [t|] eqn:Hi; simpl in Hex; [|done].
    destruct t as [a|a|a|a v|a r|a r]; simpl in Hex.
    + destruct (decide (cache_key (closure s) a ∈ pending (closure s))) as [Hin|Hout].
      * simplify_eq. intros j u Hj Hu. simpl in *.
        apply (lookup_update _ _ _ _ _ _ Hi) in Hj as [[<- ->]|[Hne Hj]]; [done|].
        by apply (U j).
      * pose proof (cache_getitem_peek (clock s) (w_cache (closure s))
                      (cache_key (closure s) a)) as Hpk.
        pose proof (peek_getitem (clock s) (w_cache (closure s))
                      (cache_key (closure s) a)) as Hfr.
        destruct (cache_getitem (clock s) (w_cache (closure s))
                    (cache_key (closure s) a)) as [[result|] c];
          simpl in Hpk, Hfr; simplify_eq; intros j u Hj Hu;
          unfold cached; simpl in *; rewrite cache_key_set_shared, Hfr.
        -- apply (lookup_update _ _ _ _ _ _ Hi) in Hj as [[<- ->]|[Hne Hj]]; [done|].
           by apply (U j).
        -- apply (lookup_update _ _ _ _ _ _ Hi) in Hj as [[<- ->]|[Hne Hj]]; [done|].
           by apply (U j).
    + done.
    + assert (Hk : cached s (cache_key (closure s) a) = None) by (by apply (U i _ Hi)).
      destruct (func (closure s) a) as [v|e]; simplify_eq; intros j u Hj Hu;
        unfold cached; simpl in *.
      all: apply (lookup_update _ _ _ _ _ _ Hi) in Hj as [[<- ->]|[Hne Hj]];
        [done|by apply (U j)].
    + destruct (cache_setitem (clock s) (w_cache (closure s))
                  (cache_key (closure s) a) v) as [c|] eqn:Hset;
        simplify_eq; intros j u Hj Hu; unfold cached; simpl in *;
        rewrite ?cache_key_set_shared.
      * apply (lookup_update _ _ _ _ _ _ Hi) in Hj as [[<- ->]|[Hne Hj]]; [done|].
        apply not_Some_None. intros v' Hv'.
        assert (Hk : cache_key (closure s) (args_of u) <> cache_key (closure s) a).
        { intros Heq. apply Hne. symmetry.
          eapply (g_unique _ _ _ G j i u (Storing a v)); eauto.
          by apply unsaved_in_flight. }
        pose proof (peek_setitem _ _ _ _ _ _ _ Hset Hk Hv') as Hold.
        pose proof (U j u Hj Hu) as Hnone. unfold cached in Hnone. congruence.
      * apply (lookup_update _ _ _ _ _ _ Hi) in Hj as [[<- ->]|[Hne Hj]]; [done|].
        by apply (U j).
    + destruct (decide (cache_key (closure s) a ∈ pending (closure s))) as [Hin|Hout];
        simplify_eq; intros j u Hj Hu; unfold cached; simpl in *;
        rewrite ?cache_key_set_shared.
      * rewrite notify_all_lookup in Hj.
        destruct (_ !! j) as [u0|] eqn:Hj0; simplify_eq/=.
        rewrite unsaved_wake in Hu.
        apply (lookup_update _ _ _ _ _ _ Hi) in Hj0 as [[<- ->]|[Hne Hj]]; [done|].
        rewrite args_of_wake. by apply (U j u0 Hj).
      * apply (lookup_update _ _ _ _ _ _ Hi) in Hj as [[<- ->]|[Hne Hj]]; [done|].
        by apply (U j).
    + done.
  - simplify_eq. intros j u Hj Hu. unfold cached. simpl. apply peek_clear.
  - simplify_eq. intros j u Hj Hu. unfold cached. simpl in *.
    apply not_Some_None. intros v Hv. apply peek_later in Hv.
    pose proof (U j u Hj Hu) as Hnone. unfold cached in Hnone. congruence.
Qed.

Lemma uncached_run acts : forall s s',
  guarded s -> uncached s -> run s acts = Some s' -> uncached s'.
Proof.
  induction acts as [|act acts IH]; intros s s' G U Hr; simpl in Hr; [by simplify_eq|].
  destruct (exec s act) as [s1|] eqn:He; simpl in Hr; [|done].
  eapply IH; [| |done]; eauto using guarded_exec, uncached_exec.
Qed.

Lemma reachable_uncached s : reachable s -> uncached s.
Proof.
  intros (w & now & l & acts & Hp & Hr).
  eapply uncached_run; [| |done]; [by apply guarded_spawn|apply uncached_spawn].
Qed.

(** X7: failures are not cached.  In every reachable state, when
    [func] has raised and the thread stands in its [finally:], the
    cache holds nothing for its key; the thread then raises that error,
    the key is neither cached nor pending any more, and the next caller
    with that key, woken or new, is counted as a miss and calls [func]
    again. *)
Theorem failure_is_not_cached (s : system) (i : nat) (a : call_args) (e : exn) :
  reachable s -> threads s !! i = Some (Finishing a (inr e)) ->
  cached s (cache_key (closure s) a) = None /\
  exists s',
    exec s (Run i) = Some s' /\
    threads s' !! i = Some (Done a (inr e)) /\
    cached s' (cache_key (closure s) a) = None /\
    (cache_key (closure s) a ∉ pending (closure s')) /\
    (forall j b,
       threads s' !! j = Some (Waiting b) ->
       cache_key (closure s) b = cache_key (closure s) a ->
       exists s'', exec s' (Run j) = Some s'' /\
         threads s'' !! j = Some (Computing b) /\
         hits (closure s'') = hits (closure s') /\
         misses (closure s'') = S (misses (closure s'))).
Proof.
  intros Hre Hi. pose proof (reachable_guarded _ Hre) as G.
  pose proof (reachable_uncached _ Hre i _ Hi eq_refl) as Hno. simpl in Hno.
  assert (Hlt : i < length (threads s)) by (eapply lookup_lt_Some; eauto).
  split; [done|].
  destruct (finishing_step _ _ _ _ G Hi) as [Hin Hst].
  eexists. split; [exact Hst|]. simpl.
  split.
  { by apply (notified_lookup _ _ _ _ i Hi). }
  assert (Hout : cache_key (closure s) a
                 ∉ pending (closure s) ∖ {[cache_key (closure s) a]}).
  { rewrite elem_of_difference, elem_of_singleton. tauto. }
  split; [done|]. split; [done|].
  intros j b Hj Hk.
  assert (Hlj : j < length (notify_all (<[i := Done a (inr e)]> (threads s)))).
  { eapply lookup_lt_Some; eauto. }
  rewrite Hj. simpl. rewrite cache_key_set_shared, Hk.
  rewrite decide_False by done.
  pose proof (cache_getitem_peek (clock s) (w_cache (closure s))
                (cache_key (closure s) a)) as Hpk.
  unfold cached in Hno. rewrite Hno in Hpk.
  destruct (cache_getitem _ _ _) as [[v|] c]; simpl in Hpk; [done|].
  eexists. split; [reflexivity|]. simpl.
  split; [by apply list_lookup_insert_eq|done].
Qed.

Lemma failure_is_not_cached_witness :
  cached raised_with_waiter (cache_key (closure raised_with_waiter) (call_int 1)) = None /\
  exists s',
    exec raised_with_waiter (Run 0) = Some s' /\
    threads s' !! 0 = Some (Done (call_int 1) (inr (Raised "RuntimeError"))) /\
    exists s'', exec s' (Run 1) = Some s'' /\
      threads s'' !! 1 = Some (Computing (call_int 1)).
Proof.
  assert (Hre : reachable raised_with_waiter).
  { exists (wrap (fifo_cache (ArgInt 2) false) failing), 0%Z,
      [call_int 1; call_int 1], [Run 0; Run 1; Run 0].
    split; [reflexivity|]. vm_compute. reflexivity. }
  destruct (failure_is_not_cached raised_with_waiter 0 (call_int 1)
              (Raised "RuntimeError") Hre eq_refl)
    as (Hno & s' & He & Hd & _ & _ & Hnext).
  split; [exact Hno|]. exists s'. split; [exact He|]. split; [exact Hd|].
  assert (Hw : threads s' !! 1 = Some (Waiting (call_int 1))).
  { vm_compute in He. injection He as <-. reflexivity. }
  destruct (Hnext 1 (call_int 1) Hw eq_refl) as (s'' & He' & Hc & _).
  exists s''. split; [exact He'|exact Hc].
Defined.

(** X8: the function is not called for a key the cache holds, and a
    store never overwrites.  In every reachable state, a thread that is
    about to call [func] or about to store its value has its key
    pending and finds nothing under it in the cache, whatever other
    threads, [cache_clear()] and the timer did since its miss; so no
    caller can have hit on that key in between. *)
Theorem key_uncached_until_stored (s : system) (i : nat) (t : tstate) :
  reachable s -> threads s !! i = Some t -> awaiting t = true ->
  cached s (cache_key (closure s) (args_of t)) = None /\
  cache_key (closure s) (args_of t) ∈ pending (closure s) /\
  (cache_getitem (clock s) (w_cache (closure s))
     (cache_key (closure s) (args_of t))).1 = None.
Proof.
  intros Hre Hi Ht. pose proof (reachable_guarded _ Hre) as G.
  pose proof (reachable_unstored _ Hre i t Hi Ht) as Hno.
  split; [done|]. split.
  - apply (g_pending _ _ _ G). exists i, t. split; [done|]. split; [|done].
    by destruct t.
  - by rewrite cache_getitem_peek.
Qed.

Lemma key_uncached_until_stored_witness :
  threads oversized_store !! 0 = Some (Storing (call_int 1) (PInt 1)) /\
  cached oversized_store (cache_key (closure oversized_store) (call_int 1)) = None.
Proof.
  split; [reflexivity|].
  refine (proj1 (key_uncached_until_stored oversized_store 0
                   (Storing (call_int 1) (PInt 1)) _ eq_refl eq_refl)).
  exists (wrap (lru_cache (ArgInt 0) false) identity), 0%Z, [call_int 1],
    [Run 0; Run 0].
  split; [reflexivity|]. vm_compute. reflexivity.
Defined.

(** ** [maxsize=None]: a dict that only grows *)





(** ** The first call *)



(** ** [cache_clear()] when no call is under way *)

(** X11: once every call has returned, [cache_clear()] puts the
    wrapper back in the state [decorator] built: nothing pending, both
    counters zero, nothing that a lookup finds, at any time; the
    function, the parameters and the [maxsize] of the cache are as they
    were.  So the accounting of the next calls starts afresh. *)
Theorem idle_clear_is_fresh (s : system) :
  reachable s -> completed s ->
  fresh (cache_clear (closure s)) /\
  func (cache_clear (closure s)) = func (closure s) /\
  cache_parameters (cache_clear (closure s)) = cache_parameters (closure s) /\
  cache_maxsize (w_cache (cache_clear (closure s))) = cache_maxsize (w_cache (closure s)).
Proof.
  intros Hre Hc. pose proof (reachable_guarded _ Hre) as G.
  split; [|split; [done|split; [done|]]].
  - split; simpl; [|done|done|intros; apply peek_clear].
    apply set_eq. intros k. split; [|intros []%not_elem_of_empty].
    intros (i & t & Hi & Hf & _)%(g_pending _ _ _ G).
    pose proof (completed_lookup _ _ _ Hc Hi). by destruct t.
  - simpl. by destruct (w_cache (closure s)).
Qed.

Lemma idle_clear_is_fresh_witness :
  hits (closure three_callers_done) = 1 /\
  fresh (cache_clear (closure three_callers_done)).
Proof.
  split; [reflexivity|].
  refine (proj1 (idle_clear_is_fresh three_callers_done _ _)).
  - exists (wrap (fifo_cache ArgNone false) identity), 0%Z,
      [call_int 1; call_int 2; call_float 1], three_callers_schedule.
    split; [reflexivity|]. vm_compute. reflexivity.
  - repeat constructor.
Defined.

(** ** Every run ends *)

Lemma effort_update ts : forall i t t',
  ts !! i = Some t ->
  sum_list_with effort (<[i := t']> ts) + effort t = sum_list_with effort ts + effort t'.
Proof.
  induction ts as [|u ts IH]; intros [|i] t t' Hi; simplify_eq/=.
  - lia.
  - specialize (IH i t t' Hi). lia.
Qed.

Lemma effort_notify ts :
  sum_list_with effort (notify_all ts) <= sum_list_with effort ts + count unfinished ts.
Proof.
  unfold notify_all, count. induction ts as [|u ts IH]; [done|].
  rewrite fmap_cons. simpl. destruct u; simpl; lia.
Qed.

Lemma potential_exec s act s' :
  exec s act = Some s' ->
  potential (threads s') + match act with Run _ => 1 | _ => 0 end
  <= potential (threads s).
Proof.
  intros Hex. destruct act as [i| |d]; simpl in Hex; [|simplify_eq; simpl; lia..].
  destruct (threads s !! i) as [t|] eqn:Hi; simpl in Hex; [|done].
  pose proof (fun t' => effort_update _ _ _ t' Hi) as E.
  pose proof (fun t' => count_update unfinished _ _ _ t' Hi) as C.
  unfold potential.
  destruct t as [a|a|a|a v|a r|a r]; simpl in Hex.
  - repeat case_match; simplify_eq; simpl.
    all: match goal with
         | |- context [<[_ := ?t']> _] => specialize (E t'); specialize (C t')
         end; simpl in *; nia.
  - done.
  - destruct (func (closure s) a) as [v|e]; simplify_eq; simpl.
    all: match goal with
         | |- context [<[_ := ?t']> _] => specialize (E t'); specialize (C t')
         end; simpl in *; nia.
  - repeat case_match; simplify_eq; simpl.
    all: match goal with
         | |- context [<[_ := ?t']> _] => specialize (E t'); specialize (C t')
         end; simpl in *; nia.
  - destruct (decide (cache_key (closure s) a ∈ pending (closure s))); simplify_eq; simpl.
    + specialize (E (Done a r)). specialize (C (Done a r)). simpl in E, C.
      pose proof (effort_notify (<[i := Done a r]> (threads s))) as N.
      rewrite count_notify by apply unfinished_wake. nia.
    + specialize (E (Done a (inr KeyError))). specialize (C (Done a (inr KeyError))).
      simpl in E, C. nia.
  - done.
Qed.

Lemma potential_run acts : forall s s',
  run s acts = Some s' ->
  potential (threads s') + transitions acts <= potential (threads s).
Proof.
  induction acts as [|act acts IH]; intros s s' Hr; simpl in Hr.
  - simplify_eq. simpl. lia.
  - destruct (exec s act) as [s1|] eqn:He; simpl in Hr; [|done].
    pose proof (potential_exec _ _ _ He). specialize (IH _ _ Hr).
    unfold transitions in *. simpl. lia.
Qed.

Lemma potential_spawn w now l :
  potential (threads (spawn w now l)) = length l * (length l + 5).
Proof.
  assert (He : sum_list_with effort (Waiting <$> l) = 5 * length l).
  { induction l as [|a l IH]; [done|]. rewrite fmap_cons. simpl. rewrite IH. lia. }
  assert (Hu : count unfinished (Waiting <$> l) = length l).
  { rewrite <- (length_fmap Waiting l). apply count_all.
    intros i t Hi. rewrite list_lookup_fmap in Hi. destruct (l !! i); by simplify_eq/=. }
  unfold potential, spawn, threads. rewrite He, Hu. lia.
Qed.

(** X12: no livelock.  Whatever the scheduler does, the [N] calls
    [l] make at most [N * (N + 5)] transitions in all, [cache_clear()]
    and the timer left aside: each call its test of the pending set,
    its lookup, its call of [func], its store and its [finally:], and
    one more test each time a [notify_all()] wakes it from
    [cond.wait_for]; and there is one [notify_all()] for each call that
    missed. *)
Theorem every_run_is_bounded (w : wrapper) (now : Z) (l : list call_args)
    (acts : list action) (s : system) :
  run (spawn w now l) acts = Some s ->
  transitions acts <= length l * (length l + 5).
Proof.
  intros Hr. pose proof (potential_run _ _ _ Hr) as Hp.
  rewrite potential_spawn in Hp. lia.
Qed.

Lemma every_run_is_bounded_witness :
  transitions three_callers_schedule = 9 /\
  transitions three_callers_schedule <= 3 * (3 + 5).
Proof.
  split; [reflexivity|].
  apply (every_run_is_bounded (wrap (fifo_cache ArgNone false) identity) 0
           [call_int 1; call_int 2; call_float 1] three_callers_schedule
           three_callers_done).
  vm_compute. reflexivity.
Defined.
